(** * Unique-references field app: a shallow embedding of [src/index.tsx]

    The development follows the source file top-down: the data the
    component keeps ([LocalItem], [Entry], [ContentType]), the pure
    helpers ([getEntryStatus], [duplicateUniqueIds], the array surgery of
    [onMove] and [onDragEnd]), then the asynchronous handlers
    ([fetchData], [findExistingLinks], [removeLinkFromEntry],
    [getEntryTitle], [onAddExisting], the [onValueChanged] callback) as
    programs of a small state-and-exception monad over the component's
    world. *)

From Stdlib Require Import ZArith PrimFloat.
From stdpp Require Import gmap strings list pretty.

Local Open Scope Z_scope.
Local Open Scope nat_scope.

(* ===================================================================== *)
(** * Data model *)
(* ===================================================================== *)

(** [interface Link]: [sys.type] and [sys.linkType] are the literal types
    ['Link'] and ['Entry'], so a typed link is determined by its id. *)
Record Link := { link_id : string }.

(** [interface LocalItem] *)
Record LocalItem := { uniqueId : string; link : Link }.

(** Values found under [entry.fields[f][locale]] (typed [any] in the
    source): the shapes the handlers tell apart. *)
#[warnings="-register-all"]
Inductive JsVal :=
| VNull
| VText (s : string)
| VLink (ty lt id : string)      (* { sys: { type, linkType, id } } *)
| VArr (vs : list JsVal).

(** A locale-keyed object; [Object.entries] and [Object.values] walk it
    in insertion order, hence an association list. *)
Definition LocaleMap := list (string * JsVal).

(** [interface Entry]; the version counters are JS numbers, that is,
    IEEE 754 doubles. *)
Record Entry := {
  e_id : string;
  e_contentType : string;
  e_version : float;
  e_publishedVersion : option float;
  e_archivedVersion : option float;
  e_fields : gmap string LocaleMap
}.

(** [interface ContentType] *)
Record ContentType := { ct_id : string; ct_name : string; ct_displayField : string }.

(** [interface LinkedFromEntry] *)
Record LinkedFromEntry := { lf_entry : Entry; lf_fieldId : string; lf_locale : string }.

Inductive Status := Archived | Published | Changed | Draft.

Inductive Direction := Top | Bottom.

(** [DropResult] of the drag library, reduced to what [onDragEnd] reads. *)
Record DropResult := { source_index : Z; destination : option Z }.

Definition targetId (item : LocalItem) : string := link_id (link item).

Definition mkLink (id : string) : Link := {| link_id := id |}.

(* ===================================================================== *)
(** * JavaScript conventions used by the source *)
(* ===================================================================== *)

(** Truthiness of a number: the zeros and [NaN] are falsy. *)
Definition truthy_float (x : float) : bool := negb (is_zero x || is_nan x).

(** Truthiness of an optional number: [undefined] is falsy too. *)
Definition truthy_num (o : option float) : bool :=
  match o with
  | Some x => truthy_float x
  | None => false
  end.

(** [o && k o] for an optional number [o]. *)
Definition and_num (o : option float) (k : float → bool) : bool :=
  match o with
  | Some x => if truthy_float x then k x else false
  | None => false
  end.

Definition truthy (v : JsVal) : bool :=
  match v with
  | VNull => false
  | VText s => if decide (s = "") then false else true
  | VLink _ _ _ => true
  | VArr _ => true
  end.

(** [Array.isArray(value) ? value : [value]] *)
Definition as_array (v : JsVal) : list JsVal :=
  match v with
  | VArr vs => vs
  | _ => [v]
  end.

(** [link?.sys?.type === 'Link' && link?.sys?.linkType === 'Entry' &&
    link?.sys?.id === entryId] *)
Definition is_link_to (entryId : string) (v : JsVal) : bool :=
  match v with
  | VLink ty lt id =>
      bool_decide (ty = "Link") && bool_decide (lt = "Entry") && bool_decide (id = entryId)
  | _ => false
  end.

(** Property lookup and assignment on a locale-keyed object. *)
Fixpoint locale_get (locale : string) (m : LocaleMap) : option JsVal :=
  match m with
  | [] => None
  | (k, v) :: m' => if decide (k = locale) then Some v else locale_get locale m'
  end.

Fixpoint locale_set (locale : string) (v : JsVal) (m : LocaleMap) : LocaleMap :=
  match m with
  | [] => [(locale, v)]
  | (k, w) :: m' =>
      if decide (k = locale) then (k, v) :: m' else (k, w) :: locale_set locale v m'
  end.

(** [Array.prototype.splice]'s normalisation of its [start] argument. *)
Definition splice_start (len : nat) (start : Z) : nat :=
  if (start <? 0)%Z then Z.to_nat (Z.max (Z.of_nat len + start) 0)
  else Z.to_nat (Z.min start (Z.of_nat len)).

(** [const [x] = a.splice(start, 1)]: the removed element ([None] is
    [undefined], when nothing was removed) and the array left behind. *)
Definition splice_remove1 {A} (start : Z) (a : list A) : option A * list A :=
  let k := splice_start (length a) start in
  (a !! k, take k a ++ drop (S k) a).

(** [a.splice(start, 0, x)] *)
Definition splice_insert {A} (start : Z) (x : A) (a : list A) : list A :=
  let k := splice_start (length a) start in
  take k a ++ x :: drop k a.

(* ===================================================================== *)
(** * Pure helpers of the component *)
(* ===================================================================== *)

(** [getEntryStatus]; [===], [>] and [+] are those of doubles. *)
Definition getEntryStatus (entry : Entry) : Status :=
  if truthy_num (e_archivedVersion entry) then Archived
  else if and_num (e_publishedVersion entry)
            (λ p, e_version entry =? p + 1)%float then Published
  else if and_num (e_publishedVersion entry)
            (λ p, p + 1 <? e_version entry)%float then Changed
  else Draft.


(** The body of the [forEach] in [duplicateUniqueIds], on the pair
    [(seen, duplicates)]. *)
Definition dup_step (acc : gset string * gset string) (item : LocalItem)
  : gset string * gset string :=
  let '(seen, duplicates) := acc in
  let entryId := targetId item in
  if decide (entryId ∈ seen) then (seen, {[uniqueId item]} ∪ duplicates)
  else ({[entryId]} ∪ seen, duplicates).

(** [duplicateUniqueIds] *)
Definition duplicateUniqueIds (items : list LocalItem) : gset string :=
  (foldl dup_step (∅, ∅) items).2.

(** The array [onMove] hands to [updateFieldValue]; a slot is [None]
    where the source array holds [undefined] (index out of range). *)
Definition onMove (index : Z) (direction : Direction) (items : list LocalItem)
  : list (option LocalItem) :=
  let '(movedItem, newItems) := splice_remove1 index items in
  match direction with
  | Top => movedItem :: (Some <$> newItems)
  | Bottom => (Some <$> newItems) ++ [movedItem]
  end.

(** The array [onDragEnd] hands to [updateFieldValue]; [None] when the
    handler returns early for lack of a destination. *)
Definition onDragEnd (result : DropResult) (items : list LocalItem)
  : option (list (option LocalItem)) :=
  match destination result with
  | None => None
  | Some dest =>
      let '(reorderedItem, newItems) := splice_remove1 (source_index result) items in
      Some (splice_insert dest reorderedItem (Some <$> newItems))
  end.

(** Remove-then-insert on a list, by positions. *)
Definition remove_at {A} (i : nat) (l : list A) : list A := take i l ++ drop (S i) l.
Definition insert_at {A} (i : nat) (x : A) (l : list A) : list A := take i l ++ x :: drop i l.

(** [ids.join(',')] *)
Definition join_comma (ids : list string) : string :=
  Stdlib.Strings.String.concat "," ids.

(** [s.substring(2, 11)] *)
Definition substring_2_11 (s : string) : string :=
  Stdlib.Strings.String.substring 2 9 s.

(** What a template literal prints for a value. *)
Fixpoint js_string (v : JsVal) : string :=
  match v with
  | VNull => "null"
  | VText s => s
  | VLink _ _ _ => "[object Object]"
  | VArr vs =>
      join_comma
        ((fix elems (l : list JsVal) : list string :=
            match l with
            | [] => []
            | VNull :: l' => "" :: elems l'
            | x :: l' => js_string x :: elems l'
            end) vs)
  end.

(** Adding to a [Set] that is later read back with [Array.from]:
    insertion order, no repetition. *)
Definition ordered_add (x : string) (s : list string) : list string :=
  if decide (x ∈ s) then s else s ++ [x].

(** The double quote character of the notification texts. *)
Definition dq : string := String (Stdlib.Strings.Ascii.ascii_of_nat 34) EmptyString.

(* ===================================================================== *)
(** * The component's world and its collaborators *)
(* ===================================================================== *)

Inductive Notice :=
| NSuccess (msg : string)
| NWarning (msg : string)
| NError (msg : string).

(** One item of [sdk.field.validations]. *)
Record Validation := { linkContentType : option (list string) }.

(** Everything a handler can read or change: the React state, the field
    value behind [sdk.field], the entries behind [sdk.cma.entry.get] and
    [update], what was sent to the notifier and to the console (newest
    first), and how many awaited calls and random draws were made. *)
Record World := {
  w_items : list LocalItem;
  w_entries : gmap string Entry;
  w_contentTypes : gmap string ContentType;
  w_isLoading : bool;
  w_field : list Link;
  w_store : gmap string Entry;
  w_notes : list Notice;
  w_console : list string;
  w_tick : nat;
  w_rand : nat
}.

(** The collaborators, as seen during one run of a handler. [h_fault n]
    tells whether the [n]-th awaited call rejects; the remaining fields
    are the replies of the calls that resolve. *)
Record Host := {
  h_entryId : string;                          (* sdk.entry.getSys().id *)
  h_contentTypeId : string;                    (* sdk.contentType.sys.id *)
  h_fieldId : string;                          (* sdk.field.id *)
  h_locale : string;                           (* sdk.field.locale *)
  h_fieldType : string;                        (* sdk.field.type *)
  h_validations : list Validation;             (* sdk.field.validations *)
  h_itemValidations : option (list Validation);(* sdk.field.items.validations *)
  h_fault : nat → bool;
  h_random : nat → string;                     (* Math.random().toString(36) *)
  h_picked : option (list string) → option (list Entry);
  h_answer : nat → bool;                       (* openConfirm, by call number *)
  h_entries_in : string → list Entry;          (* entry.getMany, sys.id[in] *)
  h_types_in : string → list ContentType;      (* contentType.getMany *)
  h_links_to : string → string → list Entry;   (* entry.getMany, links_to_entry *)
  h_contentType : string → option ContentType  (* contentType.get *)
}.

Definition set_items (v : list LocalItem) (w : World) : World :=
  {| w_items := v; w_entries := w_entries w; w_contentTypes := w_contentTypes w;
     w_isLoading := w_isLoading w; w_field := w_field w; w_store := w_store w;
     w_notes := w_notes w; w_console := w_console w; w_tick := w_tick w;
     w_rand := w_rand w |}.

Definition set_entries (v : gmap string Entry) (w : World) : World :=
  {| w_items := w_items w; w_entries := v; w_contentTypes := w_contentTypes w;
     w_isLoading := w_isLoading w; w_field := w_field w; w_store := w_store w;
     w_notes := w_notes w; w_console := w_console w; w_tick := w_tick w;
     w_rand := w_rand w |}.

Definition set_contentTypes (v : gmap string ContentType) (w : World) : World :=
  {| w_items := w_items w; w_entries := w_entries w; w_contentTypes := v;
     w_isLoading := w_isLoading w; w_field := w_field w; w_store := w_store w;
     w_notes := w_notes w; w_console := w_console w; w_tick := w_tick w;
     w_rand := w_rand w |}.

Definition set_isLoading (v : bool) (w : World) : World :=
  {| w_items := w_items w; w_entries := w_entries w; w_contentTypes := w_contentTypes w;
     w_isLoading := v; w_field := w_field w; w_store := w_store w;
     w_notes := w_notes w; w_console := w_console w; w_tick := w_tick w;
     w_rand := w_rand w |}.

Definition set_field (v : list Link) (w : World) : World :=
  {| w_items := w_items w; w_entries := w_entries w; w_contentTypes := w_contentTypes w;
     w_isLoading := w_isLoading w; w_field := v; w_store := w_store w;
     w_notes := w_notes w; w_console := w_console w; w_tick := w_tick w;
     w_rand := w_rand w |}.

Definition set_store (v : gmap string Entry) (w : World) : World :=
  {| w_items := w_items w; w_entries := w_entries w; w_contentTypes := w_contentTypes w;
     w_isLoading := w_isLoading w; w_field := w_field w; w_store := v;
     w_notes := w_notes w; w_console := w_console w; w_tick := w_tick w;
     w_rand := w_rand w |}.

Definition add_note (n : Notice) (w : World) : World :=
  {| w_items := w_items w; w_entries := w_entries w; w_contentTypes := w_contentTypes w;
     w_isLoading := w_isLoading w; w_field := w_field w; w_store := w_store w;
     w_notes := n :: w_notes w; w_console := w_console w; w_tick := w_tick w;
     w_rand := w_rand w |}.

Definition add_console (msg : string) (w : World) : World :=
  {| w_items := w_items w; w_entries := w_entries w; w_contentTypes := w_contentTypes w;
     w_isLoading := w_isLoading w; w_field := w_field w; w_store := w_store w;
     w_notes := w_notes w; w_console := msg :: w_console w; w_tick := w_tick w;
     w_rand := w_rand w |}.

Definition next_tick (w : World) : World :=
  {| w_items := w_items w; w_entries := w_entries w; w_contentTypes := w_contentTypes w;
     w_isLoading := w_isLoading w; w_field := w_field w; w_store := w_store w;
     w_notes := w_notes w; w_console := w_console w; w_tick := S (w_tick w);
     w_rand := w_rand w |}.

Definition next_rand (w : World) : World :=
  {| w_items := w_items w; w_entries := w_entries w; w_contentTypes := w_contentTypes w;
     w_isLoading := w_isLoading w; w_field := w_field w; w_store := w_store w;
     w_notes := w_notes w; w_console := w_console w; w_tick := w_tick w;
     w_rand := S (w_rand w) |}.

(* ===================================================================== *)
(** * Handlers as programs: state that survives a thrown exception *)
(* ===================================================================== *)

Inductive outcome (A : Type) :=
| Ret (a : A)
| Throw (e : string).
Arguments Ret {A} a.
Arguments Throw {A} e.

Definition M (A : Type) : Type := World → outcome A * World.

Definition ret {A} (a : A) : M A := λ w, (Ret a, w).

Definition throw {A} (e : string) : M A := λ w, (Throw e, w).

Definition bind {A B} (m : M A) (k : A → M B) : M B :=
  λ w, match m w with
       | (Ret a, w') => k a w'
       | (Throw e, w') => (Throw e, w')
       end.

(** [try { m } catch (e) { handler e }] *)
Definition try_catch {A} (m : M A) (handler : string → M A) : M A :=
  λ w, match m w with
       | (Ret a, w') => (Ret a, w')
       | (Throw e, w') => handler e w'
       end.

Definition gets {A} (f : World → A) : M A := λ w, (Ret (f w), w).

Definition modify (f : World → World) : M unit := λ w, (Ret tt, f w).

Declare Scope prog_scope.
Delimit Scope prog_scope with prog.
Notation "'do' x <- m ; k" := (bind m (λ x, k))
  (at level 10, x name, m at level 100, k at level 200, only parsing) : prog_scope.
Notation "'do' ' p <- m ; k" := (bind m (λ p, k))
  (at level 10, p pattern, m at level 100, k at level 200, only parsing) : prog_scope.
Notation "'run' m ; k" := (bind m (λ _, k))
  (at level 10, m at level 100, k at level 200, only parsing) : prog_scope.
Local Open Scope prog_scope.

Section Handlers.

Variable h : Host.

(** An awaited call on a collaborator: it counts as one call, and either
    rejects (nothing else happens) or goes on as [call]. *)
Definition await {A} (call : M A) : M A :=
  λ w, if h_fault h (w_tick w) then (Throw "rejected", next_tick w)
       else call (next_tick w).

Definition console_error (msg : string) : M unit := modify (add_console msg).

Definition notifier (n : Notice) : M unit := modify (add_note n).

(** [generateUniqueId]: one draw of [Math.random], rendered in base 36,
    characters 2 to 10 of the rendering. *)
Definition generateUniqueId : M string :=
  λ w, (Ret (substring_2_11 (h_random h (w_rand w))), next_rand w).

(** [links.map(link => ({ uniqueId: generateUniqueId(), link }))] *)
Fixpoint wrap_links (links : list Link) : M (list LocalItem) :=
  match links with
  | [] => ret []
  | l :: links' =>
      do u <- generateUniqueId;
      do rest <- wrap_links links';
      ret ({| uniqueId := u; link := l |} :: rest)
  end.

(** [getValidationContentTypes] *)
Definition getValidationContentTypes : option (list string) :=
  let validations :=
    match h_itemValidations h with
    | Some vs => if decide (h_fieldType h = "Array") then vs else h_validations h
    | None => h_validations h
    end in
  match List.find (λ v, bool_decide (is_Some (linkContentType v))) validations with
  | Some v => linkContentType v
  | None => None
  end.

(** The [forEach] over [entriesResult.items] in [fetchData]. *)
Definition index_entries (items : list Entry) : gmap string Entry * list string :=
  foldl (λ acc entry,
           (<[e_id entry := entry]> acc.1, ordered_add (e_contentType entry) acc.2))
        (∅, []) items.

(** The [forEach] over [contentTypesResult.items] in [fetchData]. *)
Definition index_types (items : list ContentType) : gmap string ContentType :=
  foldl (λ acc ct, <[ct_id ct := ct]> acc) ∅ items.

(** [fetchData] *)
Definition fetchData (links : list Link) : M unit :=
  if bool_decide (length links = 0) then ret tt
  else
    run modify (set_isLoading true);
    run try_catch
          (let ids := link_id <$> links in
           do entriesResult <- await (ret (h_entries_in h (join_comma ids)));
           let '(entriesMap, contentTypeIds) := index_entries entriesResult in
           run modify (set_entries entriesMap);
           do contentTypesResult <-
             await (ret (h_types_in h (join_comma contentTypeIds)));
           modify (set_contentTypes (index_types contentTypesResult)))
          (λ _, console_error "Error fetching data");
    modify (set_isLoading false).

(** The callback registered with [sdk.field.onValueChanged]. The fetch it
    starts is not awaited by the source; here it runs to completion
    after the items are set. *)
Definition onValueChanged (value : option (list Link)) : M unit :=
  let newLinks := default [] value in
  do newItems <- wrap_links newLinks;
  run modify (set_items newItems);
  fetchData newLinks.

(** [updateFieldValue] *)
Definition updateFieldValue (newItems : list LocalItem) : M unit :=
  run modify (set_items newItems);
  let links := link <$> newItems in
  await (modify (set_field links)).

(** The locales of [entry.fields[fieldId]] whose value links to
    [entryId]: the inner loop of [findExistingLinks]. *)
Definition linking_locales (entryId fieldId : string) (entry : Entry)
  : list LinkedFromEntry :=
  match e_fields entry !! fieldId with
  | None => []
  | Some fieldValue =>
      flat_map (λ '(locale, value),
                  if existsb (is_link_to entryId) (as_array value)
                  then [{| lf_entry := entry; lf_fieldId := fieldId; lf_locale := locale |}]
                  else [])
               fieldValue
  end.

(** The outer loop of [findExistingLinks]. *)
Definition linked_from (entryId : string) (items : list Entry) : list LinkedFromEntry :=
  flat_map (λ entry,
              if bool_decide (e_id entry = h_entryId h) then []
              else linking_locales entryId (h_fieldId h) entry)
           items.

(** [findExistingLinks] *)
Definition findExistingLinks (entryId : string) : M (list LinkedFromEntry) :=
  try_catch
    (do result <- await (ret (h_links_to h entryId (h_contentTypeId h)));
     ret (linked_from entryId result))
    (λ _, run console_error "Error checking existing links:"; ret []).

(** [entry.fields[fieldId][locale] = v] *)
Definition assign_field (entry : Entry) (fieldId locale : string) (v : JsVal) : Entry :=
  {| e_id := e_id entry; e_contentType := e_contentType entry;
     e_version := e_version entry; e_publishedVersion := e_publishedVersion entry;
     e_archivedVersion := e_archivedVersion entry;
     e_fields := <[fieldId := locale_set locale v (default [] (e_fields entry !! fieldId))]>
                   (e_fields entry) |}.

(** [entry.fields[fieldId]?.[locale]] *)
Definition read_field (entry : Entry) (fieldId locale : string) : option JsVal :=
  e_fields entry !! fieldId ≫= locale_get locale.

(** [sdk.cma.entry.get]: the stored entry, or a rejection when there is
    none under that id. *)
Definition cma_entry_get (entryId : string) : M Entry :=
  await (λ w, match w_store w !! entryId with
              | Some e => (Ret e, w)
              | None => (Throw "NotFound", w)
              end).

(** [sdk.cma.entry.update]: the entry is stored as sent. *)
Definition cma_entry_update (entryId : string) (entry : Entry) : M unit :=
  await (λ w, (Ret tt, set_store (<[entryId := entry]> (w_store w)) w)).

(** The links of a field value that do not point to [targetEntryId]. *)
Definition without_link (targetEntryId : string) (fieldValue : JsVal) : JsVal :=
  VArr (List.filter (λ l, negb (is_link_to targetEntryId l)) (as_array fieldValue)).

(** [removeLinkFromEntry] *)
Definition removeLinkFromEntry (sourceEntryId fieldId locale targetEntryId : string)
  : M bool :=
  try_catch
    (do entry <- cma_entry_get sourceEntryId;
     match read_field entry fieldId locale with
     | None => ret false
     | Some fieldValue =>
         if negb (truthy fieldValue) then ret false
         else
           run cma_entry_update sourceEntryId
                 (assign_field entry fieldId locale (without_link targetEntryId fieldValue));
           ret true
     end)
    (λ _, run console_error "Error removing link from entry:"; ret false).

(** [getEntryTitle]; a missing property reads as [undefined], which is
    falsy like [VNull]. *)
Definition getEntryTitle (entry : Entry) : M string :=
  try_catch
    (let contentTypeId := e_contentType entry in
     do cached <- gets (λ w, w_contentTypes w !! contentTypeId);
     do ct <- match cached with
              | Some ct => ret ct
              | None => await (match h_contentType h contentTypeId with
                               | Some ct => ret ct
                               | None => throw "NotFound"
                               end)
              end;
     match e_fields entry !! ct_displayField ct with
     | Some values =>
         let localeValue := default VNull (locale_get (h_locale h) values) in
         if truthy localeValue then ret (js_string localeValue)
         else
           let firstValue := default VNull (snd <$> head values) in
           if truthy firstValue then ret (js_string firstValue)
           else ret "Untitled"
     | None => ret "Untitled"
     end)
    (λ _, ret "Untitled").

(** [sdk.dialogs.selectMultipleEntries(options)] *)
Definition selectMultipleEntries (contentTypes : option (list string))
  : M (option (list Entry)) :=
  await (ret (h_picked h contentTypes)).

(** [sdk.dialogs.openConfirm]: the answer of the dialog shown by this
    call. *)
Definition openConfirm : M bool :=
  λ w, await (ret (h_answer h (w_tick w))) w.

(** First loop of [onAddExisting]: sort the new entries into those to
    add and those to move. *)
Fixpoint classify (newEntries : list Entry) (entriesToAdd : list Entry)
    (entriesToMove : list (Entry * LinkedFromEntry))
  : M (list Entry * list (Entry * LinkedFromEntry)) :=
  match newEntries with
  | [] => ret (entriesToAdd, entriesToMove)
  | entry :: rest =>
      do existingLinks <- findExistingLinks (e_id entry);
      match existingLinks with
      | linkedFrom :: _ => classify rest entriesToAdd (entriesToMove ++ [(entry, linkedFrom)])
      | [] => classify rest (entriesToAdd ++ [entry]) entriesToMove
      end
  end.

Definition moved_text (entryTitle sourceEntryTitle : string) : string :=
  "Moved " +:+ dq +:+ entryTitle +:+ dq +:+ " from " +:+ dq +:+ sourceEntryTitle
    +:+ dq +:+ ".".

Definition failed_text (entryTitle : string) : string :=
  "Failed to move " +:+ dq +:+ entryTitle +:+ dq +:+ ". Please try again.".

(** The [if (confirmed) { ... }] block of the second loop. *)
Definition move_confirmed (entry : Entry) (linkedFrom : LinkedFromEntry)
    (entryTitle sourceEntryTitle : string) (entriesToAdd : list Entry)
  : M (list Entry) :=
  do removed <- removeLinkFromEntry (e_id (lf_entry linkedFrom)) (lf_fieldId linkedFrom)
                  (lf_locale linkedFrom) (e_id entry);
  if removed : bool then
    run notifier (NSuccess (moved_text entryTitle sourceEntryTitle));
    ret (entriesToAdd ++ [entry])
  else
    run notifier (NError (failed_text entryTitle));
    ret entriesToAdd.

(** The three awaited calls at the head of the second loop's body: both
    titles, then the confirmation dialog. *)
Definition ask_move (entry : Entry) (linkedFrom : LinkedFromEntry)
  : M (string * string * bool) :=
  do entryTitle <- getEntryTitle entry;
  do sourceEntryTitle <- getEntryTitle (lf_entry linkedFrom);
  do confirmed <- openConfirm;
  ret (entryTitle, sourceEntryTitle, confirmed).

(** One turn of the second loop of [onAddExisting]. *)
Definition move_one (request : Entry * LinkedFromEntry) (entriesToAdd : list Entry)
  : M (list Entry) :=
  let '(entry, linkedFrom) := request in
  do '(entryTitle, sourceEntryTitle, confirmed) <- ask_move entry linkedFrom;
  if confirmed : bool
  then move_confirmed entry linkedFrom entryTitle sourceEntryTitle entriesToAdd
  else ret entriesToAdd.

(** Second loop of [onAddExisting]. *)
Fixpoint move_all (entriesToMove : list (Entry * LinkedFromEntry))
    (entriesToAdd : list Entry) : M (list Entry) :=
  match entriesToMove with
  | [] => ret entriesToAdd
  | request :: rest =>
      do entriesToAdd' <- move_one request entriesToAdd;
      move_all rest entriesToAdd'
  end.

(** [entriesToAdd.map(entry => ({ uniqueId: generateUniqueId(), link }))] *)
Definition wrap_entries (entriesToAdd : list Entry) : M (list LocalItem) :=
  wrap_links ((λ entry, mkLink (e_id entry)) <$> entriesToAdd).

Definition added_text (n : nat) : string :=
  "Added " +:+ pretty n +:+ " entries. Duplicates were skipped.".

(** [new Set(items.map((item) => item.link.sys.id))] *)
Definition currentIds (items : list LocalItem) : gset string :=
  list_to_set (targetId <$> items).

(** [selectedEntries.filter((entry) => !currentIds.has(entry.sys.id))] *)
Definition new_entries (items : list LocalItem) (selectedEntries : list Entry)
  : list Entry :=
  List.filter (λ entry, bool_decide (e_id entry ∉ currentIds items)) selectedEntries.

(** The [options] object handed to the picker. *)
Definition picker_options : option (list string) :=
  match getValidationContentTypes with
  | Some allowed => if bool_decide (0 < length allowed) then Some allowed else None
  | None => None
  end.

(** What [onAddExisting] does with the picker's answer: the part of the
    [try] block after [selectMultipleEntries]. *)
Definition add_selected (items : list LocalItem) (selectedEntries : list Entry) : M unit :=
  let newEntries := new_entries items selectedEntries in
  if bool_decide (length newEntries = 0) && bool_decide (0 < length selectedEntries) then
    notifier (NWarning "All selected entries are already added.")
  else
    do '(entriesToAdd0, entriesToMove) <- classify newEntries [] [];
    do entriesToAdd <- move_all entriesToMove entriesToAdd0;
    if bool_decide (length entriesToAdd = 0) then ret tt
    else
      do newLocalItems <- wrap_entries entriesToAdd;
      let updatedItems := items ++ newLocalItems in
      run updateFieldValue updatedItems;
      if bool_decide (length entriesToAdd < length selectedEntries)
         && bool_decide (length entriesToMove = 0)
      then notifier (NSuccess (added_text (length entriesToAdd)))
      else ret tt.

(** [onAddExisting]; [items] is the state the handler closed over. *)
Definition onAddExisting : M unit :=
  do items <- gets w_items;
  try_catch
    (do selectedEntries <- selectMultipleEntries picker_options;
     match selectedEntries with
     | None => ret tt
     | Some selectedEntries => add_selected items selectedEntries
     end)
    (λ e, console_error e).

End Handlers.

(* ===================================================================== *)
(** * The remaining handlers *)
(* ===================================================================== *)

Section MoreHandlers.

Variable h : Host.

(** [onRemove] *)
Definition onRemove (key : string) : M unit :=
  do items <- gets w_items;
  let updatedItems :=
    List.filter (λ item, bool_decide (uniqueId item ≠ key)) items in
  updateFieldValue h updatedItems.

(** [sdk.navigator.openEntry(entryId, { slideIn: true })] *)
Definition navigator_openEntry (entryId : string) : M unit := await h (ret tt).

(** [onEditEntry]. The handlers that touch [isNavigatingRef] return the
    value the ref holds when they end. *)
Definition onEditEntry (entryId : string) : M bool :=
  try_catch
    (run navigator_openEntry entryId; ret true)
    (λ _, run console_error "Error opening entry"; ret true).

(** [handleMouseEnter], started with the ref holding [isNavigating]. As
    in [onValueChanged], the fetch runs to completion. *)
Definition handleMouseEnter (isNavigating : bool) : M bool :=
  if isNavigating then
    do items <- gets w_items;
    let currentLinks := link <$> items in
    run fetchData h currentLinks;
    ret false
  else ret isNavigating.

(** The [onFocus] listener of the window. *)
Definition onFocus (isNavigating : bool) : M bool :=
  if isNavigating then
    do items <- gets w_items;
    let currentLinks := link <$> items in
    run fetchData h currentLinks;
    ret false
  else ret isNavigating.

(** [sdk.cma.entry.create({ contentTypeId }, { fields: {} })], the
    store answering with the entry [created]. *)
Definition cma_entry_create (contentTypeId : string) (created : Entry) : M Entry :=
  await h (λ w, (Ret created, set_store (<[e_id created := created]> (w_store w)) w)).

(** The [catch] block of [onCreateNew]. *)
Definition report_create_failure : M unit :=
  run console_error "Error creating entry";
  notifier (NError "Could not create entry. Check console for details.").

(** [onCreateNew], started with the ref holding [isNavigating]. The ref
    is assigned between the field update and the navigation, so the
    value it holds after a throw depends on which call threw: the
    single [catch] of the source is entered here from two places. *)
Definition onCreateNew (contentTypeId : string) (created : Entry) (isNavigating : bool)
  : M bool :=
  do items <- gets w_items;
  try_catch
    (do entry <- cma_entry_create contentTypeId created;
     do key <- generateUniqueId h;
     let newLocalItem := {| uniqueId := key; link := mkLink (e_id entry) |} in
     let updatedItems := items ++ [newLocalItem] in
     run updateFieldValue h updatedItems;
     try_catch
       (run navigator_openEntry (e_id entry); ret true)
       (λ _, run report_create_failure; ret true))
    (λ _, run report_create_failure; ret isNavigating).

(** [fetchAllowedTypes]; [allTypes] is the store's answer to the query
    [{ limit: 100 }]. The result is the argument of [setAllowedTypes],
    or [None] when the state is not set. *)
Definition fetchAllowedTypes (allTypes : list ContentType)
  : M (option (list ContentType)) :=
  let fetch_all :=
    try_catch
      (do result <- await h (ret allTypes);
       ret (Some result))
      (λ _, run console_error "Error fetching all content types"; ret None) in
  match getValidationContentTypes h with
  | Some allowedIds =>
      if bool_decide (0 < length allowedIds) then
        try_catch
          (do result <- await h (ret (h_types_in h (join_comma allowedIds)));
           ret (Some result))
          (λ _, run console_error "Error fetching allowed content types"; ret None)
      else fetch_all
  | None => fetch_all
  end.

(** The [try] block of [onAddExisting], [items] being the state the
    handler closed over. *)
Definition onAddExisting_try (items : list LocalItem) : M unit :=
  do selectedEntries <- selectMultipleEntries h (picker_options h);
  match selectedEntries with
  | None => ret tt
  | Some selectedEntries => add_selected h items selectedEntries
  end.

(** The title of a card, as the render computes it; [VNull] stands for
    [undefined]. *)
Definition card_title (entry : option Entry) (contentType : option ContentType)
    (isLoading : bool) : JsVal :=
  match entry, contentType with
  | Some entry, Some contentType =>
      match e_fields entry !! ct_displayField contentType with
      | Some values =>
          let localeValue := default VNull (locale_get (h_locale h) values) in
          if truthy localeValue then localeValue
          else default VNull (snd <$> head values)
      | None => VText "Untitled"
      end
  | Some _, None => VText "Untitled"
  | None, _ => if isLoading then VText "Loading..." else VText "Entry not found"
  end.

(** What the render derives for one item: title, status, duplicate mark. *)
Definition card (w : World) (item : LocalItem) : JsVal * Status * bool :=
  let entry := w_entries w !! targetId item in
  let contentType := entry ≫= λ e, w_contentTypes w !! e_contentType e in
  (card_title entry contentType (w_isLoading w),
   from_option getEntryStatus Draft entry,
   bool_decide (uniqueId item ∈ duplicateUniqueIds (w_items w))).

End MoreHandlers.

(* ===================================================================== *)
(** * Vocabulary of the statements, and sample data *)
(* ===================================================================== *)



Definition entry_of_versions (v : float) (p a : option float) : Entry :=
  {| e_id := "e"; e_contentType := "t"; e_version := v;
     e_publishedVersion := p; e_archivedVersion := a; e_fields := ∅ |}.

(** The item at position [i] repeats the target of an earlier item. *)
Definition repeats (items : list LocalItem) (i : nat) : Prop :=
  ∃ it j jt, items !! i = Some it ∧ j < i ∧ items !! j = Some jt
             ∧ targetId jt = targetId it.

Definition item (key target : string) : LocalItem :=
  {| uniqueId := key; link := mkLink target |}.

(** A host on which every call resolves, with nothing to return. *)
Definition host0 : Host :=
  {| h_entryId := "current"; h_contentTypeId := "page"; h_fieldId := "sections";
     h_locale := "en-US"; h_fieldType := "Array"; h_validations := [];
     h_itemValidations := None;
     h_fault := λ _, false;
     h_random := λ n, "0.k" +:+ pretty n +:+ "zzzzzzzzzz";
     h_picked := λ _, None;
     h_answer := λ _, true;
     h_entries_in := λ _, [];
     h_types_in := λ _, [];
     h_links_to := λ _ _, [];
     h_contentType := λ _, None |}.

Definition with_fault (f : nat → bool) (h : Host) : Host :=
  {| h_entryId := h_entryId h; h_contentTypeId := h_contentTypeId h;
     h_fieldId := h_fieldId h; h_locale := h_locale h; h_fieldType := h_fieldType h;
     h_validations := h_validations h; h_itemValidations := h_itemValidations h;
     h_fault := f; h_random := h_random h; h_picked := h_picked h;
     h_answer := h_answer h; h_entries_in := h_entries_in h;
     h_types_in := h_types_in h; h_links_to := h_links_to h;
     h_contentType := h_contentType h |}.

Definition with_random (r : nat → string) (h : Host) : Host :=
  {| h_entryId := h_entryId h; h_contentTypeId := h_contentTypeId h;
     h_fieldId := h_fieldId h; h_locale := h_locale h; h_fieldType := h_fieldType h;
     h_validations := h_validations h; h_itemValidations := h_itemValidations h;
     h_fault := h_fault h; h_random := r; h_picked := h_picked h;
     h_answer := h_answer h; h_entries_in := h_entries_in h;
     h_types_in := h_types_in h; h_links_to := h_links_to h;
     h_contentType := h_contentType h |}.

Definition with_picked (sel : option (list Entry)) (h : Host) : Host :=
  {| h_entryId := h_entryId h; h_contentTypeId := h_contentTypeId h;
     h_fieldId := h_fieldId h; h_locale := h_locale h; h_fieldType := h_fieldType h;
     h_validations := h_validations h; h_itemValidations := h_itemValidations h;
     h_fault := h_fault h; h_random := h_random h; h_picked := λ _, sel;
     h_answer := h_answer h; h_entries_in := h_entries_in h;
     h_types_in := h_types_in h; h_links_to := h_links_to h;
     h_contentType := h_contentType h |}.

Definition with_answer (a : nat → bool) (h : Host) : Host :=
  {| h_entryId := h_entryId h; h_contentTypeId := h_contentTypeId h;
     h_fieldId := h_fieldId h; h_locale := h_locale h; h_fieldType := h_fieldType h;
     h_validations := h_validations h; h_itemValidations := h_itemValidations h;
     h_fault := h_fault h; h_random := h_random h; h_picked := h_picked h;
     h_answer := a; h_entries_in := h_entries_in h;
     h_types_in := h_types_in h; h_links_to := h_links_to h;
     h_contentType := h_contentType h |}.

Definition with_entries_in (r : list Entry) (h : Host) : Host :=
  {| h_entryId := h_entryId h; h_contentTypeId := h_contentTypeId h;
     h_fieldId := h_fieldId h; h_locale := h_locale h; h_fieldType := h_fieldType h;
     h_validations := h_validations h; h_itemValidations := h_itemValidations h;
     h_fault := h_fault h; h_random := h_random h; h_picked := h_picked h;
     h_answer := h_answer h; h_entries_in := λ _, r;
     h_types_in := h_types_in h; h_links_to := h_links_to h;
     h_contentType := h_contentType h |}.

Definition with_types_in (r : list ContentType) (h : Host) : Host :=
  {| h_entryId := h_entryId h; h_contentTypeId := h_contentTypeId h;
     h_fieldId := h_fieldId h; h_locale := h_locale h; h_fieldType := h_fieldType h;
     h_validations := h_validations h; h_itemValidations := h_itemValidations h;
     h_fault := h_fault h; h_random := h_random h; h_picked := h_picked h;
     h_answer := h_answer h; h_entries_in := h_entries_in h;
     h_types_in := λ _, r; h_links_to := h_links_to h;
     h_contentType := h_contentType h |}.

Definition with_links_to (r : string → list Entry) (h : Host) : Host :=
  {| h_entryId := h_entryId h; h_contentTypeId := h_contentTypeId h;
     h_fieldId := h_fieldId h; h_locale := h_locale h; h_fieldType := h_fieldType h;
     h_validations := h_validations h; h_itemValidations := h_itemValidations h;
     h_fault := h_fault h; h_random := h_random h; h_picked := h_picked h;
     h_answer := h_answer h; h_entries_in := h_entries_in h;
     h_types_in := h_types_in h; h_links_to := λ entryId _, r entryId;
     h_contentType := h_contentType h |}.

(** An empty component in front of an empty store. *)
Definition world0 : World :=
  {| w_items := []; w_entries := ∅; w_contentTypes := ∅; w_isLoading := false;
     w_field := []; w_store := ∅; w_notes := []; w_console := [];
     w_tick := 0; w_rand := 0 |}.

(** An entry of type [page] with the given id and [sections] links, in
    the locale [en-US]. *)
Definition page (id : string) (sections : list string) : Entry :=
  {| e_id := id; e_contentType := "page"; e_version := 1;
     e_publishedVersion := None; e_archivedVersion := None;
     e_fields := {[ "sections" := [("en-US", VArr ((λ t, VLink "Link" "Entry" t) <$> sections))] ]} |}.

(** An entry of type [section] without fields. *)
Definition section (id : string) : Entry :=
  {| e_id := id; e_contentType := "section"; e_version := 1;
     e_publishedVersion := None; e_archivedVersion := None; e_fields := ∅ |}.

Definition section_type : ContentType :=
  {| ct_id := "section"; ct_name := "Section"; ct_displayField := "title" |}.

(** A page [P] that already links to the sections [b] and [c]; the
    picker returns the sections [a] and [b]. *)
Definition linked_from_P : LinkedFromEntry :=
  {| lf_entry := page "P" ["b"; "c"]; lf_fieldId := "sections"; lf_locale := "en-US" |}.

Definition host_conflict : Host :=
  with_picked (Some [section "a"; section "b"])
    (with_links_to (λ id, if bool_decide (id = "b") then [page "P" ["b"; "c"]] else [])
       host0).

Definition world_conflict : World := set_store {[ "P" := page "P" ["b"; "c"] ]} world0.

(** The same, with the confirmation dialog (the sixth awaited call)
    rejecting, and with the user declining. *)
Definition host_dialog_throws : Host :=
  with_fault (λ n, bool_decide (n = 5)) host_conflict.

Definition host_dialog_declines : Host := with_answer (λ _, false) host_conflict.

(** The same, with the write to the old parent (the eighth awaited
    call) rejecting. *)
Definition host_write_fails : Host :=
  with_fault (λ n, bool_decide (n = 7)) host_conflict.


(** An object filled by [items.forEach(x => { map[key x] = x })]. *)
Definition index_by {V} (key : V → string) (m : gmap string V) (items : list V)
  : gmap string V :=
  foldl (λ acc x, <[key x := x]> acc) m items.

(** The parts of the world a handler may leave alone: the component's
    own state, and what lies outside it. *)
Definition view_collection (w : World) :=
  (w_items w, w_field w, w_entries w, w_contentTypes w, w_isLoading w, w_rand w).

Definition view_remote (w : World) := (w_store w, w_notes w).

(** Nothing but the call counter moved. *)
Definition only_ticks (w w' : World) : Prop :=
  view_collection w' = view_collection w ∧ view_remote w' = view_remote w
  ∧ w_console w' = w_console w.

(** Nothing but the call counter and the console moved. *)
Definition only_logs (w w' : World) : Prop :=
  view_collection w' = view_collection w ∧ view_remote w' = view_remote w.

(** The component's own state did not move. *)
Definition keeps_collection (w w' : World) : Prop :=
  view_collection w' = view_collection w.

(** Reading a component of a world that was built by the setters. *)
Ltac world_simpl :=
  cbn [w_items w_entries w_contentTypes w_isLoading w_field w_store w_notes
       w_console w_tick w_rand set_items set_entries set_contentTypes
       set_isLoading set_field set_store add_note add_console next_tick
       next_rand fst snd] in *.

(* ===================================================================== *)
(** * Status derivation *)
(* ===================================================================== *)







(** What the code makes of counters that are not finite, non-zero
    integers below 2^53: a [NaN] archived version does not archive, and a
    negative zero published version does not publish. *)
Example getEntryStatus_odd_counters :
  getEntryStatus (entry_of_versions 1 None (Some nan)) = Draft
  ∧ getEntryStatus (entry_of_versions 1 (Some (-0)%float) None) = Draft
  ∧ getEntryStatus (entry_of_versions nan (Some 1%float) None) = Draft.
Proof. repeat split; reflexivity. Qed.

(* ===================================================================== *)
(** * Duplicate detection *)
(* ===================================================================== *)

(** What the loop has computed after walking [l] from [(seen, dup)]. *)
Lemma foldl_dup_step (l : list LocalItem) : ∀ (seen dup : gset string) (k : string),
  k ∈ (foldl dup_step (seen, dup) l).2 ↔
  k ∈ dup ∨ ∃ i it, l !! i = Some it ∧ uniqueId it = k
                    ∧ (targetId it ∈ seen ∨ repeats l i).
Proof.
  induction l as [|a l IH]; intros seen dup k; simpl.
  - split; [tauto|]. intros [?|(i & it & Hi & _)]; [done|]. by destruct i.
  - destruct (decide (targetId a ∈ seen)) as [Hin|Hnin].
    + pose proof (IH seen ({[uniqueId a]} ∪ dup)) as IH2.
      * rewrite IH2, elem_of_union, elem_of_singleton. split.
        -- intros [[->|?]|(i & it & Hi & Hk & Hrep)]; [|tauto|].
           ++ right. exists 0, a. simpl. tauto.
           ++ right. exists (S i), it. simpl. repeat split; [done..|].
              destruct Hrep as [?|(it' & j & jt & ? & ? & ? & ?)]; [tauto|].
              right. exists it', (S j), jt. simpl. repeat split; [done|lia|done..].
        -- intros [?|(i & it & Hi & Hk & Hrep)]; [tauto|].
           destruct i as [|i]; simpl in Hi.
           ++ injection Hi as <-. left. left. done.
           ++ right. exists i, it. repeat split; [done..|].
              destruct Hrep as [?|(it' & j & jt & Hi' & Hj & Hjt & He)]; [tauto|].
              simpl in Hi'. destruct j as [|j]; simpl in Hjt.
              ** injection Hjt as <-. left. assert (it' = it) as -> by congruence.
                 by rewrite <- He.
              ** right. exists it', j, jt. repeat split; [done|lia|done..].
    + pose proof (IH ({[targetId a]} ∪ seen) dup) as IH2.
      * rewrite IH2. split.
        -- intros [?|(i & it & Hi & Hk & Hrep)]; [tauto|].
           right. exists (S i), it. simpl. repeat split; [done..|].
           destruct Hrep as [Hs|(it' & j & jt & ? & ? & ? & ?)].
           ++ apply elem_of_union in Hs as [Hs|?]; [|tauto].
              apply elem_of_singleton in Hs. right.
              exists it, 0, a. simpl. repeat split; [done|lia|done..].
           ++ right. exists it', (S j), jt. simpl. repeat split; [done|lia|done..].
        -- intros [?|(i & it & Hi & Hk & Hrep)]; [tauto|].
           destruct i as [|i]; simpl in Hi.
           ++ injection Hi as <-. destruct Hrep as [?|(? & j & ? & _ & ? & _)]; [done|lia].
           ++ right. exists i, it. repeat split; [done..|].
              destruct Hrep as [?|(it' & j & jt & Hi' & Hj & Hjt & He)].
              ** left. apply elem_of_union. tauto.
              ** simpl in Hi'. destruct j as [|j]; simpl in Hjt.
                 --- injection Hjt as <-. left. assert (it' = it) as -> by congruence.
                     apply elem_of_union. left. apply elem_of_singleton. done.
                 --- right. exists it', j, jt. repeat split; [done|lia|done..].
Qed.

Lemma elem_of_duplicateUniqueIds (items : list LocalItem) (k : string) :
  k ∈ duplicateUniqueIds items ↔
  ∃ i it, items !! i = Some it ∧ uniqueId it = k ∧ repeats items i.
Proof.
  unfold duplicateUniqueIds.
  rewrite foldl_dup_step. split.
  - intros [?|(i & it & ? & ? & [?|?])]; [set_solver| set_solver|]. eauto.
  - intros (i & it & ? & ? & ?). right. eauto 6.
Qed.

(** C2: the detector's set holds exactly the local keys of the items
    that repeat the target of an earlier item (second and later
    occurrences); and, local keys being distinct within a Collection, an
    item is flagged exactly when it is such a later occurrence, so the
    first occurrence of a target is never flagged. *)
Theorem duplicateUniqueIds_spec (items : list LocalItem) :
  (∀ k, k ∈ duplicateUniqueIds items ↔
        ∃ i it, items !! i = Some it ∧ uniqueId it = k ∧ repeats items i)
  ∧ (NoDup (uniqueId <$> items) →
     ∀ i it, items !! i = Some it →
       (uniqueId it ∈ duplicateUniqueIds items ↔ repeats items i)
       ∧ ((∀ j jt, j < i → items !! j = Some jt → targetId jt ≠ targetId it) →
          uniqueId it ∉ duplicateUniqueIds items)).
Proof.
  split; [apply elem_of_duplicateUniqueIds|].
  intros Hnd i it Hi.
  assert (uniqueId it ∈ duplicateUniqueIds items ↔ repeats items i) as Hiff.
  { rewrite elem_of_duplicateUniqueIds. split.
    - intros (i' & it' & Hi' & Hk & Hrep).
      assert (i' = i) as ->; [|done].
      apply (NoDup_lookup _ i' i (uniqueId it) Hnd);
        rewrite list_lookup_fmap; [rewrite Hi'|rewrite Hi]; simpl; congruence.
    - intros Hrep. eauto. }
  split; [exact Hiff|].
  intros Hfirst Hflag. apply Hiff in Hflag as (it' & j & jt & Hi' & Hj & Hjt & He).
  assert (it' = it) as -> by congruence. by eapply Hfirst.
Qed.

Lemma duplicateUniqueIds_spec_witness :
  NoDup (uniqueId <$> [item "k1" "a"; item "k2" "b"; item "k3" "a"])
  ∧ (uniqueId (item "k3" "a")
       ∈ duplicateUniqueIds [item "k1" "a"; item "k2" "b"; item "k3" "a"]
     ↔ repeats [item "k1" "a"; item "k2" "b"; item "k3" "a"] 2).
Proof.
  assert (NoDup (uniqueId <$> [item "k1" "a"; item "k2" "b"; item "k3" "a"])) as Hnd.
  { apply (bool_decide_unpack _). vm_compute. exact I. }
  split; [exact Hnd|].
  apply (proj2 (duplicateUniqueIds_spec [item "k1" "a"; item "k2" "b"; item "k3" "a"])
               Hnd 2 (item "k3" "a") eq_refl).
Defined.

Example duplicateUniqueIds_sample :
  duplicateUniqueIds [item "k1" "a"; item "k2" "b"; item "k3" "a"; item "k4" "a"]
  = {[ "k3"; "k4" ]}.
Proof. vm_compute. reflexivity. Qed.

(* ===================================================================== *)
(** * Moving and reordering *)
(* ===================================================================== *)

Section Splice.

Context {A : Type}.
Implicit Types (l : list A) (x : A) (i : nat).

Lemma splice_start_in_range (len : nat) (start : Z) :
  (0 ≤ start ≤ Z.of_nat len)%Z → splice_start len start = Z.to_nat start.
Proof.
  intros H. unfold splice_start.
  destruct (Z.ltb_spec start 0); [lia|]. f_equal. lia.
Qed.

Lemma length_remove_at i l : i < length l → S (length (remove_at i l)) = length l.
Proof.
  intros H. unfold remove_at.
  rewrite length_app, length_take, length_drop. lia.
Qed.

Lemma remove_insert_at i x l : i ≤ length l → remove_at i (insert_at i x l) = l.
Proof.
  intros H. unfold remove_at, insert_at.
  rewrite take_app_length' by (rewrite length_take; lia).
  rewrite (cons_middle x), app_assoc.
  rewrite drop_app_length' by (rewrite length_app, length_take; simpl; lia).
  apply take_drop.
Qed.

Lemma insert_remove_at i x l : l !! i = Some x → insert_at i x (remove_at i l) = l.
Proof.
  intros H. pose proof (lookup_lt_Some _ _ _ H) as Hlt.
  unfold remove_at, insert_at.
  rewrite take_app_length' by (rewrite length_take; lia).
  rewrite drop_app_length' by (rewrite length_take; lia).
  rewrite <- (take_drop_middle l i x H) at 3. reflexivity.
Qed.

Lemma lookup_insert_at i x l : i ≤ length l → insert_at i x l !! i = Some x.
Proof.
  intros H. unfold insert_at.
  rewrite lookup_app_r by (rewrite length_take; lia).
  rewrite length_take. replace (i - i `min` length l) with 0 by lia. reflexivity.
Qed.

Lemma length_insert_at i x l : length (insert_at i x l) = S (length l).
Proof.
  unfold insert_at. rewrite length_app. simpl.
  rewrite length_take, length_drop. lia.
Qed.

Lemma splice_remove1_in_range l (start : Z) :
  (0 ≤ start < Z.of_nat (length l))%Z →
  splice_remove1 start l = (l !! Z.to_nat start, remove_at (Z.to_nat start) l).
Proof.
  intros H. unfold splice_remove1. rewrite splice_start_in_range by lia. reflexivity.
Qed.

Lemma splice_insert_in_range l (start : Z) x :
  (0 ≤ start ≤ Z.of_nat (length l))%Z →
  splice_insert start x l = insert_at (Z.to_nat start) x l.
Proof.
  intros H. unfold splice_insert. rewrite splice_start_in_range by lia. reflexivity.
Qed.

End Splice.

Lemma fmap_remove_at {A B} (f : A → B) i (l : list A) :
  f <$> remove_at i l = remove_at i (f <$> l).
Proof. unfold remove_at. by rewrite fmap_app, fmap_take, fmap_drop. Qed.

Lemma fmap_insert_at {A B} (f : A → B) i x (l : list A) :
  f <$> insert_at i x l = insert_at i (f x) (f <$> l).
Proof. unfold insert_at. by rewrite fmap_app, fmap_cons, fmap_take, fmap_drop. Qed.

(** What [onDragEnd] computes for a source and a destination within
    bounds. *)
Lemma onDragEnd_in_range (items : list LocalItem) (from to : Z) (x : LocalItem) :
  items !! Z.to_nat from = Some x →
  (0 ≤ from)%Z → (0 ≤ to < Z.of_nat (length items))%Z →
  onDragEnd {| source_index := from; destination := Some to |} items
  = Some (Some <$> insert_at (Z.to_nat to) x (remove_at (Z.to_nat from) items)).
Proof.
  intros Hx Hfrom Hto. pose proof (lookup_lt_Some _ _ _ Hx) as Hlt.
  unfold onDragEnd. cbn [destination source_index].
  rewrite splice_remove1_in_range by lia. rewrite Hx.
  pose proof (length_remove_at (Z.to_nat from) items Hlt) as Hlen.
  rewrite splice_insert_in_range by (rewrite length_fmap; lia).
  by rewrite fmap_insert_at.
Qed.

(** C7: for a source and a destination within bounds, [onDragEnd]
    removes the item at the source and inserts it at the destination, and
    dragging back from the destination to the source restores the
    original order. *)
Theorem onDragEnd_roundtrip (items : list LocalItem) (from to : Z) :
  (0 ≤ from < Z.of_nat (length items))%Z →
  (0 ≤ to < Z.of_nat (length items))%Z →
  ∃ x items',
    items !! Z.to_nat from = Some x
    ∧ items' = insert_at (Z.to_nat to) x (remove_at (Z.to_nat from) items)
    ∧ onDragEnd {| source_index := from; destination := Some to |} items
      = Some (Some <$> items')
    ∧ onDragEnd {| source_index := to; destination := Some from |} items'
      = Some (Some <$> items).
Proof.
  intros Hfrom Hto.
  destruct (lookup_lt_is_Some_2 items (Z.to_nat from)) as [x Hx]; [lia|].
  pose proof (length_remove_at (Z.to_nat from) items ltac:(lia)) as Hlen.
  exists x, (insert_at (Z.to_nat to) x (remove_at (Z.to_nat from) items)).
  split; [done|]. split; [done|]. split.
  - apply onDragEnd_in_range; [done|lia..].
  - rewrite (onDragEnd_in_range _ to from x).
    + rewrite remove_insert_at by lia. by rewrite insert_remove_at.
    + apply lookup_insert_at. lia.
    + lia.
    + rewrite length_insert_at. lia.
Qed.

Lemma onDragEnd_roundtrip_witness :
  ∃ x items',
    [item "k1" "a"; item "k2" "b"; item "k3" "c"] !! Z.to_nat 0 = Some x
    ∧ items' = insert_at (Z.to_nat 2) x
                 (remove_at (Z.to_nat 0) [item "k1" "a"; item "k2" "b"; item "k3" "c"])
    ∧ onDragEnd {| source_index := 0; destination := Some 2%Z |}
        [item "k1" "a"; item "k2" "b"; item "k3" "c"]
      = Some (Some <$> items')
    ∧ onDragEnd {| source_index := 2; destination := Some 0%Z |} items'
      = Some (Some <$> [item "k1" "a"; item "k2" "b"; item "k3" "c"]).
Proof.
  apply (onDragEnd_roundtrip [item "k1" "a"; item "k2" "b"; item "k3" "c"] 0 2);
    simpl; lia.
Defined.

Example onDragEnd_sample :
  onDragEnd {| source_index := 0; destination := Some 2%Z |}
    [item "k1" "a"; item "k2" "b"; item "k3" "c"]
  = Some [Some (item "k2" "b"); Some (item "k3" "c"); Some (item "k1" "a")].
Proof. reflexivity. Qed.

(** Out of range, the moved slot is [undefined]. *)
Example onDragEnd_out_of_range :
  onDragEnd {| source_index := 5; destination := Some 0%Z |} [item "k1" "a"]
  = Some [None; Some (item "k1" "a")].
Proof. reflexivity. Qed.

(** C8: for an index within bounds, [onMove] to the top puts the item
    of that index at index 0, followed by the other items in their
    order; to the bottom, it puts the other items in their order first
    and the item at the last index, [n - 1]. *)
Theorem onMove_spec (items : list LocalItem) (index : Z) :
  (0 ≤ index < Z.of_nat (length items))%Z →
  ∃ x, items !! Z.to_nat index = Some x
    ∧ onMove index Top items = Some <$> (x :: remove_at (Z.to_nat index) items)
    ∧ onMove index Bottom items = Some <$> (remove_at (Z.to_nat index) items ++ [x])
    ∧ (x :: remove_at (Z.to_nat index) items) !! 0 = Some x
    ∧ (remove_at (Z.to_nat index) items ++ [x]) !! (length items - 1) = Some x
    ∧ length (remove_at (Z.to_nat index) items ++ [x]) = length items.
Proof.
  intros Hi.
  destruct (lookup_lt_is_Some_2 items (Z.to_nat index)) as [x Hx]; [lia|].
  pose proof (length_remove_at (Z.to_nat index) items ltac:(lia)) as Hlen.
  exists x. unfold onMove. rewrite splice_remove1_in_range by lia. rewrite Hx.
  repeat split.
  - by rewrite fmap_app.
  - rewrite lookup_app_r by lia.
    replace (length items - 1 - length (remove_at (Z.to_nat index) items)) with 0 by lia.
    reflexivity.
  - rewrite length_app. simpl. lia.
Qed.

Lemma onMove_spec_witness :
  ∃ x, [item "k1" "a"; item "k2" "b"; item "k3" "c"] !! Z.to_nat 1 = Some x
    ∧ onMove 1 Top [item "k1" "a"; item "k2" "b"; item "k3" "c"]
      = Some <$> (x :: remove_at (Z.to_nat 1) [item "k1" "a"; item "k2" "b"; item "k3" "c"])
    ∧ onMove 1 Bottom [item "k1" "a"; item "k2" "b"; item "k3" "c"]
      = Some <$> (remove_at (Z.to_nat 1) [item "k1" "a"; item "k2" "b"; item "k3" "c"] ++ [x])
    ∧ (x :: remove_at (Z.to_nat 1) [item "k1" "a"; item "k2" "b"; item "k3" "c"]) !! 0
      = Some x
    ∧ (remove_at (Z.to_nat 1) [item "k1" "a"; item "k2" "b"; item "k3" "c"] ++ [x])
        !! (length [item "k1" "a"; item "k2" "b"; item "k3" "c"] - 1) = Some x
    ∧ length (remove_at (Z.to_nat 1) [item "k1" "a"; item "k2" "b"; item "k3" "c"] ++ [x])
      = length [item "k1" "a"; item "k2" "b"; item "k3" "c"].
Proof.
  apply (onMove_spec [item "k1" "a"; item "k2" "b"; item "k3" "c"] 1); simpl; lia.
Defined.

Example onMove_sample :
  onMove 1 Top [item "k1" "a"; item "k2" "b"; item "k3" "c"]
  = [Some (item "k2" "b"); Some (item "k1" "a"); Some (item "k3" "c")]
  ∧ onMove 1 Bottom [item "k1" "a"; item "k2" "b"; item "k3" "c"]
  = [Some (item "k1" "a"); Some (item "k3" "c"); Some (item "k2" "b")].
Proof. split; reflexivity. Qed.

(* ===================================================================== *)
(** * The record cache: [fetchData] *)
(* ===================================================================== *)

Section Indexing.

Context {V : Type} (key : V → string).

Lemma index_by_snoc m items x :
  index_by key m (items ++ [x]) = <[key x := x]> (index_by key m items).
Proof. unfold index_by. by rewrite foldl_app. Qed.

Lemma index_by_lookup_Some m items id x :
  index_by key m items !! id = Some x → (x ∈ items ∧ key x = id) ∨ m !! id = Some x.
Proof.
  induction items as [|y items IH] using rev_ind; [by right|].
  rewrite index_by_snoc. destruct (decide (key y = id)) as [<-|Hne].
  - rewrite lookup_insert_eq. intros [= <-]. left. split; [|done].
    apply elem_of_app. right. by apply list_elem_of_singleton.
  - rewrite lookup_insert_ne by done. intros H.
    destruct (IH H) as [[? ?]|?]; [left|by right].
    split; [|done]. apply elem_of_app. by left.
Qed.

Lemma index_by_lookup_elem m items x :
  x ∈ items → is_Some (index_by key m items !! key x).
Proof.
  induction items as [|y items IH] using rev_ind; [by intros ?%elem_of_nil|].
  rewrite index_by_snoc. intros [Hin|Hin%list_elem_of_singleton]%elem_of_app.
  - destruct (decide (key y = key x)) as [->|Hne].
    + rewrite lookup_insert_eq. eauto.
    + rewrite lookup_insert_ne by done. auto.
  - subst. rewrite lookup_insert_eq. eauto.
Qed.

Lemma index_by_lookup_None items id :
  id ∉ key <$> items → index_by key ∅ items !! id = None.
Proof.
  intros Hid. destruct (index_by key ∅ items !! id) as [x|] eqn:E; [|done].
  apply index_by_lookup_Some in E as [[Hin <-]|E]; [|by rewrite lookup_empty in E].
  exfalso. apply Hid. apply list_elem_of_fmap. eauto.
Qed.

End Indexing.

Lemma index_entries_fst (items : list Entry) :
  (index_entries items).1 = index_by e_id ∅ items.
Proof.
  unfold index_entries, index_by.
  generalize (∅ : gmap string Entry) ([] : list string).
  induction items as [|e items IH]; intros m s; simpl; [done|]. apply IH.
Qed.

Lemma index_types_eq (items : list ContentType) :
  index_types items = index_by ct_id ∅ items.
Proof. reflexivity. Qed.

Lemma fetchData_empty (h : Host) (w : World) : fetchData h [] w = (Ret tt, w).
Proof. reflexivity. Qed.

Lemma length_nonempty {A} (l : list A) : l ≠ [] → bool_decide (length l = 0) = false.
Proof. intros H. apply bool_decide_eq_false. by destruct l. Qed.

Lemma ordered_add_spec (x y : string) (s : list string) :
  y ∈ ordered_add x s ↔ y = x ∨ y ∈ s.
Proof.
  unfold ordered_add. destruct (decide (x ∈ s)).
  - split; [tauto|]. intros [->|?]; done.
  - rewrite elem_of_app, list_elem_of_singleton. tauto.
Qed.

Lemma ordered_add_NoDup (x : string) (s : list string) :
  NoDup s → NoDup (ordered_add x s).
Proof.
  unfold ordered_add. intros Hnd. destruct (decide (x ∈ s)); [done|].
  apply NoDup_app. split_and!; [done| |apply NoDup_singleton].
  intros y Hy ->%list_elem_of_singleton. done.
Qed.

Lemma index_entries_types (items : list Entry) :
  ∀ (m : gmap string Entry) (s : list string),
  NoDup s →
  NoDup (foldl (λ acc entry,
                  (<[e_id entry := entry]> acc.1, ordered_add (e_contentType entry) acc.2))
               (m, s) items).2
  ∧ ∀ t, t ∈ (foldl (λ acc entry,
                       (<[e_id entry := entry]> acc.1,
                        ordered_add (e_contentType entry) acc.2))
                    (m, s) items).2
         ↔ t ∈ s ∨ t ∈ e_contentType <$> items.
Proof.
  induction items as [|e items IH]; intros m s Hnd; cbn [foldl].
  - split; [done|]. intros t. rewrite fmap_nil, elem_of_nil. tauto.
  - destruct (IH (<[e_id e := e]> m) (ordered_add (e_contentType e) s)
                (ordered_add_NoDup _ _ Hnd)) as [IH1 IH2].
    split; [exact IH1|]. intros t. cbn [fst snd] in *.
    rewrite IH2, ordered_add_spec, fmap_cons, elem_of_cons. tauto.
Qed.

Lemma type_ids_of_entries (items : list Entry) (t : string) :
  t ∈ (index_entries items).2 ↔ t ∈ e_contentType <$> items.
Proof.
  destruct (index_entries_types items ∅ [] (NoDup_nil_2)) as [_ H2].
  unfold index_entries. rewrite H2, elem_of_nil. tauto.
Qed.

(** C10: after a fetch over a non-empty list on which both lookups
    resolve, the record cache holds exactly the records the bulk lookup
    returned, keyed by id, and the type cache exactly the returned type
    descriptors; whatever the caches held before is gone unless it was
    returned again. *)
Theorem fetchData_replaces_caches (h : Host) (links : list Link) (w : World) :
  links ≠ [] →
  h_fault h (w_tick w) = false →
  h_fault h (S (w_tick w)) = false →
  ∃ w', fetchData h links w = (Ret tt, w')
    ∧ w_isLoading w' = false
    ∧ w_entries w' = (index_entries (h_entries_in h (join_comma (link_id <$> links)))).1
    ∧ w_contentTypes w'
      = index_types (h_types_in h (join_comma
          (index_entries (h_entries_in h (join_comma (link_id <$> links)))).2))
    ∧ (∀ id e, w_entries w' !! id = Some e →
         e ∈ h_entries_in h (join_comma (link_id <$> links)) ∧ e_id e = id)
    ∧ (∀ e, e ∈ h_entries_in h (join_comma (link_id <$> links)) →
         is_Some (w_entries w' !! e_id e))
    ∧ (∀ id, id ∉ e_id <$> h_entries_in h (join_comma (link_id <$> links)) →
         w_entries w' !! id = None)
    ∧ (∀ id, id ∉ ct_id <$> h_types_in h (join_comma
          (index_entries (h_entries_in h (join_comma (link_id <$> links)))).2) →
         w_contentTypes w' !! id = None)
    ∧ (∀ id ct, w_contentTypes w' !! id = Some ct →
         ct ∈ h_types_in h (join_comma
           (index_entries (h_entries_in h (join_comma (link_id <$> links)))).2)
         ∧ ct_id ct = id)
    ∧ (∀ ct, ct ∈ h_types_in h (join_comma
           (index_entries (h_entries_in h (join_comma (link_id <$> links)))).2) →
         is_Some (w_contentTypes w' !! ct_id ct))
    ∧ (∀ t, t ∈ (index_entries (h_entries_in h (join_comma (link_id <$> links)))).2
         ↔ t ∈ e_contentType <$> h_entries_in h (join_comma (link_id <$> links))).
Proof.
  intros Hne H0 H1.
  unfold fetchData. rewrite (length_nonempty _ Hne).
  unfold bind, try_catch, await, modify, ret. world_simpl.
  rewrite H0.
  destruct (index_entries (h_entries_in h (join_comma (link_id <$> links))))
    as [entriesMap contentTypeIds] eqn:E.
  world_simpl. rewrite H1.
  eexists. split; [reflexivity|]. world_simpl.
  assert (entriesMap = index_by e_id ∅ (h_entries_in h (join_comma (link_id <$> links))))
    as -> by (rewrite <- index_entries_fst, E; reflexivity).
  split_and!; [done..| | | | | | |].
  - intros id e Hl. apply index_by_lookup_Some in Hl as [[? ?]|Hl]; [done|].
    by rewrite lookup_empty in Hl.
  - apply index_by_lookup_elem.
  - apply index_by_lookup_None.
  - intros id. rewrite index_types_eq. apply index_by_lookup_None.
  - intros id ct. rewrite index_types_eq. intros Hl.
    apply index_by_lookup_Some in Hl as [[? ?]|Hl]; [done|].
    by rewrite lookup_empty in Hl.
  - intros ct. rewrite index_types_eq. apply index_by_lookup_elem.
  - intros t.
    replace contentTypeIds
      with (index_entries (h_entries_in h (join_comma (link_id <$> links)))).2
      by (by rewrite E).
    apply type_ids_of_entries.
Qed.

Lemma fetchData_replaces_caches_witness :
  ∃ w', fetchData (with_entries_in [section "a"] (with_types_in [section_type] host0))
          [mkLink "a"]
          (set_entries {[ "old" := section "old" ]} world0) = (Ret tt, w')
      ∧ w_entries w' !! "old" = None
      ∧ is_Some (w_entries w' !! "a")
      ∧ is_Some (w_contentTypes w' !! "section").
Proof.
  destruct (fetchData_replaces_caches
              (with_entries_in [section "a"] (with_types_in [section_type] host0))
              [mkLink "a"] (set_entries {[ "old" := section "old" ]} world0))
    as (w' & Hrun & _ & _ & _ & _ & Hin & Hout & _ & _ & Htin & _);
    [done|reflexivity|reflexivity|].
  exists w'. split; [exact Hrun|]. split_and!.
  - apply Hout. cbn. by intros [= ]%list_elem_of_singleton.
  - apply (Hin (section "a")). cbn. by apply list_elem_of_singleton.
  - apply (Htin section_type). cbn. by apply list_elem_of_singleton.
Defined.

(** The three ways a fetch over a non-empty list can go. *)
Lemma fetchData_cases (h : Host) (links : list Link) (w : World) :
  links ≠ [] →
  ∃ w', fetchData h links w = (Ret tt, w')
    ∧ w_isLoading w' = false
    ∧ w_items w' = w_items w
    ∧ (h_fault h (w_tick w) = true →
         w_entries w' = w_entries w
         ∧ w_contentTypes w' = w_contentTypes w
         ∧ w_console w' = "Error fetching data" :: w_console w)
    ∧ (h_fault h (w_tick w) = false → h_fault h (S (w_tick w)) = true →
         w_entries w' = (index_entries (h_entries_in h (join_comma (link_id <$> links)))).1
         ∧ w_contentTypes w' = w_contentTypes w
         ∧ w_console w' = "Error fetching data" :: w_console w).
Proof.
  intros Hne.
  unfold fetchData. rewrite (length_nonempty _ Hne).
  unfold bind, try_catch, await, modify, ret, console_error. world_simpl.
  destruct (h_fault h (w_tick w)) eqn:H0.
  - eexists. split; [reflexivity|]. world_simpl. repeat split; intros; done.
  - destruct (index_entries (h_entries_in h (join_comma (link_id <$> links))))
      as [entriesMap contentTypeIds] eqn:E.
    world_simpl.
    destruct (h_fault h (S (w_tick w))) eqn:H1.
    + eexists. split; [reflexivity|]. world_simpl. repeat split; intros; done.
    + eexists. split; [reflexivity|]. world_simpl. repeat split; intros; done.
Qed.

(** C9, amended: a fetch over a non-empty list never raises and always
    ends with the loading flag cleared. When the record lookup rejects,
    the error is logged and both caches are as before. When the record
    lookup resolves and the type lookup rejects, the error is logged, the
    type cache is as before, and the record cache has already been
    replaced by the records just returned. *)
Theorem fetchData_failure (h : Host) (links : list Link) (w : World) :
  links ≠ [] →
  ∃ w', fetchData h links w = (Ret tt, w')
    ∧ w_isLoading w' = false
    ∧ w_items w' = w_items w
    ∧ (h_fault h (w_tick w) = true →
         w_entries w' = w_entries w
         ∧ w_contentTypes w' = w_contentTypes w
         ∧ w_console w' = "Error fetching data" :: w_console w)
    ∧ (h_fault h (w_tick w) = false → h_fault h (S (w_tick w)) = true →
         w_entries w' = (index_entries (h_entries_in h (join_comma (link_id <$> links)))).1
         ∧ w_contentTypes w' = w_contentTypes w
         ∧ w_console w' = "Error fetching data" :: w_console w).
Proof. apply fetchData_cases. Qed.

Lemma fetchData_failure_witness :
  ∃ w', fetchData (with_fault (λ _, true) host0) [mkLink "a"]
          (set_entries {[ "old" := section "old" ]} world0) = (Ret tt, w')
      ∧ w_isLoading w' = false
      ∧ w_entries w' = {[ "old" := section "old" ]}
      ∧ w_console w' = ["Error fetching data"].
Proof.
  destruct (fetchData_failure (with_fault (λ _, true) host0) [mkLink "a"]
              (set_entries {[ "old" := section "old" ]} world0))
    as (w' & Hrun & Hload & _ & Hfirst & _); [done|].
  exists w'. destruct (Hfirst eq_refl) as (He & _ & Hc). rewrite He, Hc. done.
Defined.

(** C9, as stated: the fetch fails (the type lookup rejects, the error
    is logged) and yet a previously cached record is gone. *)
Lemma fetchData_types_rejected_evicts :
  let h := with_fault (λ n, bool_decide (n = 1))
             (with_entries_in [section "a"] (with_types_in [section_type] host0)) in
  let w := set_entries {[ "old" := section "old" ]} world0 in
  w_entries w !! "old" = Some (section "old")
  ∧ (fetchData h [mkLink "a"] w).1 = Ret tt
  ∧ w_console (fetchData h [mkLink "a"] w).2 = ["Error fetching data"]
  ∧ w_isLoading (fetchData h [mkLink "a"] w).2 = false
  ∧ w_entries (fetchData h [mkLink "a"] w).2 !! "old" = None.
Proof. vm_compute. repeat split; reflexivity. Qed.

(* ===================================================================== *)
(** * Replacing the Collection: the [onValueChanged] callback *)
(* ===================================================================== *)

(** The key made from the [n]-th draw. *)
Lemma generateUniqueId_run (h : Host) (w : World) :
  generateUniqueId h w = (Ret (substring_2_11 (h_random h (w_rand w))), next_rand w).
Proof. reflexivity. Qed.

Lemma wrap_links_run (h : Host) (links : list Link) : ∀ w,
  ∃ items w',
    wrap_links h links w = (Ret items, w')
    ∧ link <$> items = links
    ∧ uniqueId <$> items
      = (λ n, substring_2_11 (h_random h n)) <$> seq (w_rand w) (length links)
    ∧ w_rand w' = w_rand w + length links
    ∧ view_remote w' = view_remote w
    ∧ w_items w' = w_items w ∧ w_field w' = w_field w ∧ w_tick w' = w_tick w
    ∧ w_console w' = w_console w.
Proof.
  induction links as [|l links IH]; intros w.
  - exists [], w. cbn. split_and!; try done; lia.
  - destruct (IH (next_rand w)) as (items & w' & Hrun & Hl & Hk & Hr & Hv & Hi & Hf & Ht & Hc).
    exists ({| uniqueId := substring_2_11 (h_random h (w_rand w)); link := l |} :: items), w'.
    split_and!.
    + cbn [wrap_links]. unfold bind at 1. rewrite generateUniqueId_run.
      unfold bind at 1. rewrite Hrun. reflexivity.
    + cbn. by rewrite Hl.
    + cbn. by rewrite Hk.
    + rewrite Hr. cbn. lia.
    + by rewrite Hv.
    + by rewrite Hi.
    + by rewrite Hf.
    + by rewrite Ht.
    + by rewrite Hc.
Qed.

Lemma fetchData_keeps_items (h : Host) (links : list Link) (w : World) :
  ∃ w', fetchData h links w = (Ret tt, w') ∧ w_items w' = w_items w.
Proof.
  destruct links as [|l links].
  - exists w. done.
  - destruct (fetchData_cases h (l :: links) w) as (w' & ? & _ & ? & _); [done|].
    eauto.
Qed.

(** The callback leaves the targets in the order of the new value, one
    item per link, and the keys are what the draws gave: pairwise
    distinct exactly when the drawn keys are. *)
Lemma onValueChanged_run (h : Host) (ids : list Link) (w : World) :
  ∃ w', onValueChanged h (Some ids) w = (Ret tt, w')
    ∧ link <$> w_items w' = ids
    ∧ uniqueId <$> w_items w'
      = (λ n, substring_2_11 (h_random h n)) <$> seq (w_rand w) (length ids).
Proof.
  unfold onValueChanged. cbn [default from_option id].
  destruct (wrap_links_run h ids w) as (items & w1 & Hrun & Hl & Hk & _).
  destruct (fetchData_keeps_items h ids (set_items items w1)) as (w' & Hf & Hi).
  exists w'. unfold bind at 1. rewrite Hrun.
  unfold bind at 1, modify at 1. rewrite Hf. rewrite Hi. cbn. done.
Qed.

(** C5 at a failing input: two draws of [Math.random] that are both
    one half render as ["0.i"], both keys are ["i"], and the Collection
    set by the callback holds the same local key twice. *)
Theorem onValueChanged_key_collision :
  w_items (onValueChanged (with_random (λ _, "0.i") host0)
             (Some [mkLink "a"; mkLink "b"]) world0).2
  = [item "i" "a"; item "i" "b"]
  ∧ ¬ NoDup (uniqueId <$> w_items (onValueChanged (with_random (λ _, "0.i") host0)
                                     (Some [mkLink "a"; mkLink "b"]) world0).2).
Proof.
  split; [vm_compute; reflexivity|].
  intros Hnd.
  assert (w_items (onValueChanged (with_random (λ _, "0.i") host0)
             (Some [mkLink "a"; mkLink "b"]) world0).2
          = [item "i" "a"; item "i" "b"]) as E by (vm_compute; reflexivity).
  rewrite E in Hnd. cbn in Hnd.
  apply NoDup_cons in Hnd as [Hnot _]. apply Hnot. apply list_elem_of_singleton. done.
Qed.

(* ===================================================================== *)
(** * Moving a reference out of its old parent *)
(* ===================================================================== *)

Lemma only_ticks_refl w : only_ticks w w.
Proof. done. Qed.

Lemma only_ticks_next w : only_ticks w (next_tick w).
Proof. done. Qed.

Lemma only_ticks_trans w1 w2 w3 : only_ticks w1 w2 → only_ticks w2 w3 → only_ticks w1 w3.
Proof. unfold only_ticks. intros (?&?&?) (?&?&?). split_and!; congruence. Qed.

Lemma only_ticks_logs w w' : only_ticks w w' → only_logs w w'.
Proof. unfold only_ticks, only_logs. tauto. Qed.

Lemma only_logs_trans w1 w2 w3 : only_logs w1 w2 → only_logs w2 w3 → only_logs w1 w3.
Proof. unfold only_logs. intros (?&?) (?&?). split; congruence. Qed.

Lemma only_logs_keeps w w' : only_logs w w' → keeps_collection w w'.
Proof. unfold only_logs, keeps_collection. tauto. Qed.

Lemma keeps_collection_trans w1 w2 w3 :
  keeps_collection w1 w2 → keeps_collection w2 w3 → keeps_collection w1 w3.
Proof. unfold keeps_collection. congruence. Qed.

Lemma keeps_collection_items w w' :
  keeps_collection w w' → w_items w' = w_items w ∧ w_field w' = w_field w.
Proof. unfold keeps_collection, view_collection. intros [= ]. done. Qed.

Lemma only_ticks_remote w w' :
  only_ticks w w' → w_store w' = w_store w ∧ w_notes w' = w_notes w.
Proof. unfold only_ticks, view_remote. intros (_ & [= ] & _). done. Qed.

Lemma locale_get_set (locale : string) (v : JsVal) (m : LocaleMap) :
  locale_get locale (locale_set locale v m) = Some v.
Proof.
  induction m as [|[k x] m IH]; simpl.
  - by rewrite decide_True.
  - destruct (decide (k = locale)) as [->|Hne]; simpl.
    + by rewrite decide_True.
    + by rewrite decide_False.
Qed.

Lemma read_assign_field (p : Entry) (f locale : string) (v : JsVal) :
  read_field (assign_field p f locale v) f locale = Some v.
Proof.
  unfold read_field, assign_field. cbn [e_fields].
  rewrite lookup_insert_eq. cbn. apply locale_get_set.
Qed.


Section ConflictResolver.

Variable h : Host.

Lemma getEntryTitle_runs (entry : Entry) (w : World) :
  ∃ t w', getEntryTitle h entry w = (Ret t, w') ∧ only_ticks w w'.
Proof.
  unfold getEntryTitle, try_catch, bind, gets, await, ret, throw.
  repeat case_match; simplify_eq;
    eexists _, _; (split; [reflexivity|]);
    first [apply only_ticks_refl | apply only_ticks_next].
Qed.

Lemma findExistingLinks_runs (entryId : string) (w : World) :
  ∃ r w', findExistingLinks h entryId w = (Ret r, w') ∧ only_logs w w'.
Proof.
  unfold findExistingLinks, try_catch, bind, await, ret, console_error, modify.
  destruct (h_fault h (w_tick w)); eexists _, _; (split; [reflexivity|]); done.
Qed.

Lemma openConfirm_run (w : World) :
  openConfirm h w
  = (if h_fault h (w_tick w) then Throw "rejected" else Ret (h_answer h (w_tick w)),
     next_tick w).
Proof. unfold openConfirm, await, ret. by destruct (h_fault h (w_tick w)). Qed.

Lemma ask_move_runs (entry : Entry) (linkedFrom : LinkedFromEntry) (w : World) :
  ∃ r w', ask_move h entry linkedFrom w = (r, w') ∧ only_ticks w w'.
Proof.
  unfold ask_move.
  destruct (getEntryTitle_runs entry w) as (t1 & w1 & E1 & F1).
  destruct (getEntryTitle_runs (lf_entry linkedFrom) w1) as (t2 & w2 & E2 & F2).
  unfold bind at 1. rewrite E1. unfold bind at 1. rewrite E2.
  unfold bind at 1. rewrite openConfirm_run.
  assert (only_ticks w (next_tick w2)) as F.
  { eapply only_ticks_trans; [exact F1|]. eapply only_ticks_trans; [exact F2|].
    apply only_ticks_next. }
  destruct (h_fault h (w_tick w2)); eexists _, _; (split; [reflexivity|]); exact F.
Qed.

(** What [removeLinkFromEntry] does: it never throws; when it answers
    [true], both calls resolved and the parent was stored with the target
    filtered out of that field and locale; when it answers [false], the
    store is as before. *)
Lemma removeLinkFromEntry_spec (parent f locale target : string) (w : World) :
  ∃ b w', removeLinkFromEntry h parent f locale target w = (Ret b, w')
    ∧ keeps_collection w w' ∧ w_notes w' = w_notes w
    ∧ ((b = true
        ∧ h_fault h (w_tick w) = false ∧ h_fault h (S (w_tick w)) = false
        ∧ ∃ p v, w_store w !! parent = Some p
            ∧ read_field p f locale = Some v ∧ truthy v = true
            ∧ w_store w'
              = <[parent := assign_field p f locale (without_link target v)]> (w_store w))
       ∨ (b = false ∧ w_store w' = w_store w)).
Proof.
  unfold removeLinkFromEntry, cma_entry_get, cma_entry_update, try_catch, bind, await,
    ret, console_error, modify.
  destruct (h_fault h (w_tick w)) eqn:F0.
  { eexists _, _. split; [reflexivity|]. split_and!; [done..|]. right. done. }
  world_simpl.
  destruct (w_store w !! parent) as [p|] eqn:Ep.
  2:{ eexists _, _. split; [reflexivity|]. split_and!; [done..|]. right. done. }
  destruct (read_field p f locale) as [v|] eqn:Ev.
  2:{ eexists _, _. split; [reflexivity|]. split_and!; [done..|]. right. done. }
  destruct (truthy v) eqn:Tv; cbn [negb].
  2:{ eexists _, _. split; [reflexivity|]. split_and!; [done..|]. right. done. }
  world_simpl.
  destruct (h_fault h (S (w_tick w))) eqn:F1.
  { eexists _, _. split; [reflexivity|]. split_and!; [done..|]. right. done. }
  eexists _, _. split; [reflexivity|]. split_and!; [done..|]. left.
  split_and!; [done..|]. exists p, v. done.
Qed.

End ConflictResolver.

Section AddExisting.

Variable h : Host.

Lemma move_one_runs (request : Entry * LinkedFromEntry) (entriesToAdd : list Entry)
    (w : World) :
  ∃ r w', move_one h request entriesToAdd w = (r, w')
    ∧ keeps_collection w w'
    ∧ (∀ a', r = Ret a' → a' = entriesToAdd ∨ a' = entriesToAdd ++ [request.1]).
Proof.
  destruct request as [entry linkedFrom].
  destruct (ask_move_runs h entry linkedFrom w) as (r & w1 & Hask & Fask).
  apply only_ticks_logs, only_logs_keeps in Fask.
  unfold move_one. unfold bind at 1. rewrite Hask.
  destruct r as [[[t1 t2] [|]]|e].
  - destruct (removeLinkFromEntry_spec h (e_id (lf_entry linkedFrom))
                (lf_fieldId linkedFrom) (lf_locale linkedFrom) (e_id entry) w1)
      as (b & w2 & Hrm & Fk & _ & _).
    unfold move_confirmed. unfold bind at 1. rewrite Hrm.
    assert (keeps_collection w w2) as F by (eapply keeps_collection_trans; eauto).
    destruct b; eexists _, _; (split; [reflexivity|]); (split; [exact F|]);
      intros a' [= <-]; auto.
  - eexists _, _. split; [reflexivity|]. split; [done|]. intros a' [= <-]. auto.
  - eexists _, _. split; [reflexivity|]. split; [done|]. intros a' [= ].
Qed.

Lemma move_all_runs (entriesToMove : list (Entry * LinkedFromEntry)) :
  ∀ (entriesToAdd : list Entry) (w : World),
  ∃ r w', move_all h entriesToMove entriesToAdd w = (r, w')
    ∧ keeps_collection w w'
    ∧ (∀ a', r = Ret a' →
         ∀ e, e ∈ a' → e ∈ entriesToAdd ∨ e ∈ fst <$> entriesToMove).
Proof.
  induction entriesToMove as [|request rest IH]; intros entriesToAdd w.
  - eexists _, _. split; [reflexivity|]. split; [done|]. intros a' [= <-] e He. auto.
  - destruct (move_one_runs request entriesToAdd w) as (r1 & w1 & H1 & F1 & Hsub1).
    cbn [move_all]. unfold bind at 1. rewrite H1.
    destruct r1 as [a1|err].
    + destruct (IH a1 w1) as (r & w' & H2 & F2 & Hsub2).
      exists r, w'. split; [exact H2|]. split; [eapply keeps_collection_trans; eauto|].
      intros a' Hr e He. rewrite fmap_cons, elem_of_cons.
      destruct (Hsub2 a' Hr e He) as [Hin|Hin]; [|tauto].
      destruct (Hsub1 a1 eq_refl) as [->| ->]; [tauto|].
      apply elem_of_app in Hin as [?|Hin%list_elem_of_singleton]; [tauto|]. subst. tauto.
    + eexists _, _. split; [reflexivity|]. split; [exact F1|]. intros a' [= ].
Qed.

(** A dialog that throws ends the loop where it stands. *)
Lemma move_all_throw (pre post : list (Entry * LinkedFromEntry)) (entry : Entry)
    (linkedFrom : LinkedFromEntry) :
  ∀ (entriesToAdd entriesToAdd1 : list Entry) (w1 w2 w3 : World) (err : string),
  move_all h pre entriesToAdd w1 = (Ret entriesToAdd1, w2) →
  ask_move h entry linkedFrom w2 = (Throw err, w3) →
  move_all h (pre ++ (entry, linkedFrom) :: post) entriesToAdd w1 = (Throw err, w3).
Proof.
  induction pre as [|request pre IH]; intros a a1 w1 w2 w3 err Hpre Hask.
  - injection Hpre as <- <-. cbn [app move_all]. unfold bind at 1, move_one.
    unfold bind at 1. by rewrite Hask.
  - cbn [app move_all] in *. unfold bind at 1 in Hpre. unfold bind at 1.
    destruct (move_one h request a w1) as [[a'|e'] w'] eqn:E1; [|discriminate].
    eapply IH; eauto.
Qed.

Lemma classify_runs (newEntries : list Entry) :
  ∀ (entriesToAdd : list Entry) (entriesToMove : list (Entry * LinkedFromEntry))
    (w : World),
  ∃ a' m' w', classify h newEntries entriesToAdd entriesToMove w = (Ret (a', m'), w')
    ∧ only_logs w w'
    ∧ (∀ e, e ∈ a' → e ∈ entriesToAdd ∨ e ∈ newEntries)
    ∧ (∀ r, r ∈ m' → r ∈ entriesToMove ∨ r.1 ∈ newEntries).
Proof.
  induction newEntries as [|entry rest IH]; intros a m w.
  - eexists _, _, _. split; [reflexivity|]. split; [done|]. split; auto.
  - destruct (findExistingLinks_runs h (e_id entry) w) as (ls & w1 & Hf & F1).
    cbn [classify]. unfold bind at 1. rewrite Hf.
    destruct ls as [|linkedFrom ls].
    + destruct (IH (a ++ [entry]) m w1) as (a' & m' & w' & Hc & F2 & Ha & Hm).
      exists a', m', w'. split; [exact Hc|]. split; [eapply only_logs_trans; eauto|].
      split.
      * intros e He. rewrite elem_of_cons.
        destruct (Ha e He) as [Hin|?]; [|tauto].
        apply elem_of_app in Hin as [?|Hin%list_elem_of_singleton]; [tauto|]. subst. tauto.
      * intros r Hr. rewrite elem_of_cons. destruct (Hm r Hr); tauto.
    + destruct (IH a (m ++ [(entry, linkedFrom)]) w1) as (a' & m' & w' & Hc & F2 & Ha & Hm).
      exists a', m', w'. split; [exact Hc|]. split; [eapply only_logs_trans; eauto|].
      split.
      * intros e He. rewrite elem_of_cons. destruct (Ha e He); tauto.
      * intros r Hr. rewrite elem_of_cons.
        destruct (Hm r Hr) as [Hin|?]; [|tauto].
        apply elem_of_app in Hin as [?|Hin%list_elem_of_singleton]; [tauto|]. subst. tauto.
Qed.

Lemma elem_of_new_entries (items : list LocalItem) (selectedEntries : list Entry)
    (e : Entry) :
  e ∈ new_entries items selectedEntries ↔
  e ∈ selectedEntries ∧ e_id e ∉ targetId <$> items.
Proof.
  unfold new_entries, currentIds.
  rewrite !list_elem_of_In, List.filter_In, bool_decide_eq_true, elem_of_list_to_set.
  rewrite <- !list_elem_of_In. done.
Qed.

Lemma updateFieldValue_run (newItems : list LocalItem) (w : World) :
  ∃ r w', updateFieldValue h newItems w = (r, w') ∧ w_items w' = newItems.
Proof.
  unfold updateFieldValue, bind, modify, await. world_simpl.
  destruct (h_fault h (w_tick w)); eexists _, _; (split; [reflexivity|]); done.
Qed.

Lemma wrap_entries_run (entriesToAdd : list Entry) (w : World) :
  ∃ newLocalItems w', wrap_entries h entriesToAdd w = (Ret newLocalItems, w')
    ∧ targetId <$> newLocalItems = e_id <$> entriesToAdd.
Proof.
  unfold wrap_entries.
  destruct (wrap_links_run h ((λ entry, mkLink (e_id entry)) <$> entriesToAdd) w)
    as (items & w' & Hrun & Hl & _).
  exists items, w'. split; [exact Hrun|].
  unfold targetId. rewrite (list_fmap_compose link link_id), Hl, <- list_fmap_compose.
  done.
Qed.

(** Whatever happens after the picker answered, the items are the old
    items followed by items whose targets were not among them. *)
Lemma add_selected_runs (items : list LocalItem) (selectedEntries : list Entry)
    (w : World) :
  w_items w = items →
  ∃ r w' added, add_selected h items selectedEntries w = (r, w')
    ∧ w_items w' = items ++ added
    ∧ (∀ it, it ∈ added → targetId it ∉ targetId <$> items).
Proof.
  intros Hitems. unfold add_selected.
  destruct (bool_decide (length (new_entries items selectedEntries) = 0)
            && bool_decide (0 < length selectedEntries)).
  { eexists _, _, []. split; [reflexivity|]. rewrite app_nil_r. split; [done|].
    intros it Hit. by apply elem_of_nil in Hit. }
  destruct (classify_runs (new_entries items selectedEntries) [] [] w)
    as (a0 & m0 & w1 & Hc & F1 & Ha0 & Hm0).
  unfold bind at 1. rewrite Hc.
  destruct (move_all_runs m0 a0 w1) as (r & w2 & Hmv & F2 & Hsub).
  unfold bind at 1. rewrite Hmv.
  assert (w_items w2 = items) as Hitems2.
  { destruct (keeps_collection_items _ _ (only_logs_keeps _ _ F1)) as [E1 _].
    destruct (keeps_collection_items _ _ F2) as [E2 _]. congruence. }
  destruct r as [entriesToAdd|err].
  2:{ eexists _, _, []. split; [reflexivity|]. rewrite app_nil_r. split; [done|].
      intros it Hit. by apply elem_of_nil in Hit. }
  destruct (bool_decide (length entriesToAdd = 0)).
  { eexists _, _, []. split; [reflexivity|]. rewrite app_nil_r. split; [done|].
    intros it Hit. by apply elem_of_nil in Hit. }
  destruct (wrap_entries_run entriesToAdd w2) as (newLocalItems & w3 & Hw & Ht).
  unfold bind at 1. rewrite Hw.
  destruct (updateFieldValue_run (items ++ newLocalItems) w3) as (r & w4 & Hu & Hi4).
  unfold bind at 1. rewrite Hu.
  assert (∀ it, it ∈ newLocalItems → targetId it ∉ targetId <$> items) as Hfresh.
  { intros it Hit.
    assert (targetId it ∈ e_id <$> entriesToAdd) as Hin.
    { rewrite <- Ht. apply list_elem_of_fmap. eauto. }
    apply list_elem_of_fmap in Hin as (e & -> & He).
    assert (e ∈ new_entries items selectedEntries) as Hnew.
    { destruct (Hsub _ eq_refl e He) as [Hin|Hin].
      - destruct (Ha0 e Hin) as [Hnil|?]; [by apply elem_of_nil in Hnil|done].
      - apply list_elem_of_fmap in Hin as (rq & -> & Hrq).
        destruct (Hm0 rq Hrq) as [Hnil|?]; [by apply elem_of_nil in Hnil|done]. }
    by apply elem_of_new_entries in Hnew as [_ ?]. }
  destruct r as [[]|err].
  - destruct (bool_decide (length entriesToAdd < length selectedEntries)
              && bool_decide (length m0 = 0));
      eexists _, _, newLocalItems; (split; [reflexivity|]); split; done.
  - eexists _, _, newLocalItems. split; [reflexivity|]. split; done.
Qed.


(** C6: [onAddExisting] never throws; afterwards the items are the old
    items followed by added items, none of which has a target that was
    already among the old items; and when the picker returned at least
    one entry and every returned entry was already among the items, the
    warning is sent and nothing is added, written to the field, or
    stored. *)
Theorem onAddExisting_skips_present (w : World) :
  ∃ w' added,
    onAddExisting h w = (Ret tt, w')
    ∧ w_items w' = w_items w ++ added
    ∧ (∀ it, it ∈ added → targetId it ∉ targetId <$> w_items w)
    ∧ (∀ selectedEntries,
         h_fault h (w_tick w) = false →
         h_picked h (picker_options h) = Some selectedEntries →
         selectedEntries ≠ [] →
         (∀ e, e ∈ selectedEntries → e_id e ∈ targetId <$> w_items w) →
         added = []
         ∧ w_notes w' = NWarning "All selected entries are already added." :: w_notes w
         ∧ w_field w' = w_field w ∧ w_store w' = w_store w).
Proof.
  unfold onAddExisting. unfold bind at 1, gets at 1.
  unfold try_catch, selectMultipleEntries. unfold bind at 1, await at 1, ret at 1.
  destruct (h_fault h (w_tick w)) eqn:F0.
  { exists (add_console "rejected" (next_tick w)), []. split; [reflexivity|].
    rewrite app_nil_r. split; [done|]. split.
    - intros it Hit. by apply elem_of_nil in Hit.
    - intros sel [= ]. }
  destruct (h_picked h (picker_options h)) as [sel|] eqn:Hpick.
  2:{ exists (next_tick w), []. split; [reflexivity|].
      rewrite app_nil_r. split; [done|]. split.
      - intros it Hit. by apply elem_of_nil in Hit.
      - intros sel _ [= ]. }
  destruct (add_selected_runs (w_items w) sel (next_tick w) eq_refl)
    as (r & w' & added & Hrun & Hitems & Hfresh).
  assert (∀ w'', add_selected h (w_items w) sel (next_tick w) = (Ret tt, w'') →
          sel ≠ [] → (∀ e, e ∈ sel → e_id e ∈ targetId <$> w_items w) →
          w'' = add_note (NWarning "All selected entries are already added.")
                  (next_tick w)) as Hwarn.
  { intros w'' Hr Hne Hall. unfold add_selected in Hr.
    assert (new_entries (w_items w) sel = []) as Hnil.
    { destruct (new_entries (w_items w) sel) as [|e l] eqn:E; [done|].
      assert (e ∈ new_entries (w_items w) sel) as He by (rewrite E; left).
      apply elem_of_new_entries in He as [He Hnot]. destruct (Hnot (Hall e He)). }
    rewrite Hnil in Hr. cbn [length] in Hr.
    rewrite bool_decide_eq_true_2 in Hr by done.
    rewrite bool_decide_eq_true_2 in Hr by (destruct sel; [done|cbn; lia]).
    cbn in Hr. by injection Hr as <-. }
  rewrite Hrun. destruct r as [[]|err].
  - exists w', added. split; [reflexivity|]. split; [done|]. split; [done|].
    intros sel' _ [= <-] Hne Hall.
    pose proof (Hwarn w' Hrun Hne Hall) as ->. world_simpl.
    split; [|done]. symmetry. apply (app_inv_head (w_items w)).
    by rewrite app_nil_r.
  - exists (add_console err w'), added. split; [reflexivity|]. split; [done|].
    split; [done|].
    intros sel' _ [= <-] Hne Hall. exfalso.
    unfold add_selected in Hrun.
    assert (new_entries (w_items w) sel = []) as Hnil.
    { destruct (new_entries (w_items w) sel) as [|e l] eqn:E; [done|].
      assert (e ∈ new_entries (w_items w) sel) as He by (rewrite E; left).
      apply elem_of_new_entries in He as [He Hnot]. destruct (Hnot (Hall e He)). }
    rewrite Hnil in Hrun. cbn [length] in Hrun.
    rewrite bool_decide_eq_true_2 in Hrun by done.
    rewrite bool_decide_eq_true_2 in Hrun by (destruct sel; [done|cbn; lia]).
    cbn in Hrun. discriminate.
Qed.

(** C4, amended: when the confirmation dialog of a candidate throws,
    the second loop stops there, the handler logs the error and ends;
    the candidates after it are not processed and nothing is appended:
    the Collection and the field value are as they were when the handler
    started. A candidate whose dialog throws is neither removed from its
    old parent nor added. *)
Theorem dialog_failure_aborts (w w0 w1 w2 w3 : World) (selectedEntries : list Entry)
    (entriesToAdd0 entriesToAdd1 : list Entry) (pre post : list (Entry * LinkedFromEntry))
    (entry : Entry) (linkedFrom : LinkedFromEntry) (err : string) :
  selectMultipleEntries h (picker_options h) w = (Ret (Some selectedEntries), w0) →
  classify h (new_entries (w_items w) selectedEntries) [] [] w0
    = (Ret (entriesToAdd0, pre ++ (entry, linkedFrom) :: post), w1) →
  move_all h pre entriesToAdd0 w1 = (Ret entriesToAdd1, w2) →
  ask_move h entry linkedFrom w2 = (Throw err, w3) →
  move_all h (pre ++ (entry, linkedFrom) :: post) entriesToAdd0 w1 = (Throw err, w3)
  ∧ onAddExisting h w = (Ret tt, add_console err w3)
  ∧ w_items w3 = w_items w ∧ w_field w3 = w_field w
  ∧ w_store w3 = w_store w2 ∧ w_notes w3 = w_notes w2.
Proof.
  intros Hsel Hcls Hpre Hask.
  pose proof (move_all_throw pre post entry linkedFrom _ _ _ _ _ _ Hpre Hask) as Hthrow.
  split; [exact Hthrow|].
  assert (new_entries (w_items w) selectedEntries ≠ []) as Hnew.
  { intros Hnil. rewrite Hnil in Hcls. cbn in Hcls. injection Hcls as _ Hm _.
    by destruct pre. }
  assert (only_ticks w w0) as F0.
  { unfold selectMultipleEntries, await, ret in Hsel.
    destruct (h_fault h (w_tick w)); [discriminate|]. injection Hsel as _ <-.
    apply only_ticks_next. }
  destruct (classify_runs (new_entries (w_items w) selectedEntries) [] [] w0)
    as (a0 & m0 & w1' & Hc & F1 & _). rewrite Hcls in Hc. injection Hc as <- <- <-.
  destruct (move_all_runs pre entriesToAdd0 w1) as (r & w2' & Hm & F2 & _).
  rewrite Hpre in Hm. injection Hm as <- <-.
  destruct (ask_move_runs h entry linkedFrom w2) as (r & w3' & Ha & F3).
  rewrite Hask in Ha. injection Ha as <- <-.
  destruct (only_ticks_remote _ _ F3) as [Hs3 Hn3].
  assert (keeps_collection w w3) as F.
  { eapply keeps_collection_trans; [apply only_logs_keeps, only_ticks_logs, F0|].
    eapply keeps_collection_trans; [apply only_logs_keeps, F1|].
    eapply keeps_collection_trans; [exact F2|].
    apply only_logs_keeps, only_ticks_logs, F3. }
  destruct (keeps_collection_items _ _ F) as [Hi Hf].
  split; [|done].
  unfold onAddExisting. unfold bind at 1, gets at 1.
  unfold try_catch. unfold bind at 1. rewrite Hsel.
  unfold add_selected.
  rewrite (bool_decide_eq_false_2 (length (new_entries (w_items w) selectedEntries) = 0))
    by (by destruct (new_entries (w_items w) selectedEntries)).
  cbn [andb]. unfold bind at 1. rewrite Hcls.
  unfold bind at 1. rewrite Hthrow. reflexivity.
Qed.








End AddExisting.

Example onAddExisting_move_sample :
  w_items (onAddExisting host_conflict world_conflict).2
  = [item "k0zzzzzzz" "a"; item "k1zzzzzzz" "b"]
  ∧ w_field (onAddExisting host_conflict world_conflict).2 = [mkLink "a"; mkLink "b"]
  ∧ (w_store (onAddExisting host_conflict world_conflict).2 !! "P"
     ≫= λ p, read_field p "sections" "en-US")
    = Some (VArr [VLink "Link" "Entry" "c"])
  ∧ length (w_notes (onAddExisting host_conflict world_conflict).2) = 1.
Proof. vm_compute. repeat split; reflexivity. Qed.

Example onAddExisting_write_fails_sample :
  w_items (onAddExisting host_write_fails world_conflict).2 = [item "k0zzzzzzz" "a"]
  ∧ w_field (onAddExisting host_write_fails world_conflict).2 = [mkLink "a"]
  ∧ (w_store (onAddExisting host_write_fails world_conflict).2 !! "P"
     ≫= λ p, read_field p "sections" "en-US")
    = Some (VArr [VLink "Link" "Entry" "b"; VLink "Link" "Entry" "c"])
  ∧ w_notes (onAddExisting host_write_fails world_conflict).2
    = [NError (failed_text "Untitled")].
Proof. vm_compute. repeat split; reflexivity. Qed.


Lemma onAddExisting_skips_present_witness :
  ∃ w', onAddExisting (with_picked (Some [section "a"]) host0)
          (set_items [item "k" "a"] world0) = (Ret tt, w')
      ∧ w_items w' = [item "k" "a"]
      ∧ w_notes w' = [NWarning "All selected entries are already added."].
Proof.
  destruct (onAddExisting_skips_present (with_picked (Some [section "a"]) host0)
              (set_items [item "k" "a"] world0))
    as (w' & added & Hrun & Hi & _ & Hwarn).
  destruct (Hwarn [section "a"]) as (-> & Hn & _); [reflexivity|reflexivity|done| |].
  - intros e ->%list_elem_of_singleton. cbn. by apply list_elem_of_singleton.
  - exists w'. done.
Defined.

Lemma dialog_failure_aborts_witness :
  onAddExisting host_dialog_throws world_conflict
  = (Ret tt, add_console "rejected"
       (ask_move host_dialog_throws (section "b") linked_from_P
          (classify host_dialog_throws [section "a"; section "b"] [] []
             (next_tick world_conflict)).2).2)
  ∧ w_items (ask_move host_dialog_throws (section "b") linked_from_P
               (classify host_dialog_throws [section "a"; section "b"] [] []
                  (next_tick world_conflict)).2).2 = [].
Proof.
  destruct (dialog_failure_aborts host_dialog_throws world_conflict
              (next_tick world_conflict)
              (classify host_dialog_throws [section "a"; section "b"] [] []
                 (next_tick world_conflict)).2
              (classify host_dialog_throws [section "a"; section "b"] [] []
                 (next_tick world_conflict)).2
              (ask_move host_dialog_throws (section "b") linked_from_P
                 (classify host_dialog_throws [section "a"; section "b"] [] []
                    (next_tick world_conflict)).2).2
              [section "a"; section "b"] [section "a"] [section "a"] [] []
              (section "b") linked_from_P "rejected")
    as (_ & Hrun & Hi & _);
    [vm_compute; reflexivity..|].
  split; [exact Hrun|exact Hi].
Defined.

(** C4, as stated: with the sections [a] (free) and [b] (linked from
    [P]) selected, a dialog that throws leaves the Collection empty and
    only logs, whereas a declined dialog lets [a] be appended: throwing
    is not treated as declining, and the final append does not occur. *)
Lemma dialog_failure_not_decline :
  (onAddExisting host_dialog_throws world_conflict).1 = Ret tt
  ∧ w_items (onAddExisting host_dialog_throws world_conflict).2 = []
  ∧ w_field (onAddExisting host_dialog_throws world_conflict).2 = []
  ∧ w_console (onAddExisting host_dialog_throws world_conflict).2 = ["rejected"]
  ∧ w_items (onAddExisting host_dialog_declines world_conflict).2
    = [item "k0zzzzzzz" "a"]
  ∧ w_field (onAddExisting host_dialog_declines world_conflict).2 = [mkLink "a"].
Proof. vm_compute. repeat split; reflexivity. Qed.

(** The first locale that links to the candidate is the one reported,
    and the current entry is never its own conflict. *)
Example linked_from_sample :
  linked_from host0 "b" [page "current" ["b"]; page "P" ["b"; "c"]; page "Q" ["c"]]
  = [linked_from_P].
Proof. reflexivity. Qed.

Example getEntryTitle_sample :
  (getEntryTitle host0
     {| e_id := "s"; e_contentType := "section"; e_version := 1;
        e_publishedVersion := None; e_archivedVersion := None;
        e_fields := {[ "title" := [("de-DE", VText "Abschnitt")] ]} |}
     (set_contentTypes {[ "section" := section_type ]} world0)).1
  = Ret "Abschnitt"
  ∧ (getEntryTitle host0 (section "s") world0).1 = Ret "Untitled".
Proof. vm_compute. split; reflexivity. Qed.

(* ===================================================================== *)
(** * Further properties: duplicates, removal, moves out of range *)
(* ===================================================================== *)

(** X1: no item is flagged as a duplicate exactly when the targets of
    the items are pairwise distinct. *)
Theorem duplicateUniqueIds_empty_iff (items : list LocalItem) :
  duplicateUniqueIds items = ∅ ↔ NoDup (targetId <$> items).
Proof.
  split.
  - intros Hempty. apply NoDup_alt. intros i j x Hi Hj.
    apply list_lookup_fmap_Some in Hi as (a & -> & Ha).
    apply list_lookup_fmap_Some in Hj as (b & Hab & Hb).
    destruct (Nat.lt_trichotomy i j) as [Hlt|[->|Hlt]]; [exfalso| done |exfalso].
    + assert (uniqueId b ∈ duplicateUniqueIds items) as Hin.
      { apply elem_of_duplicateUniqueIds. exists j, b. split_and!; [done..|].
        exists b, i, a. done. }
      rewrite Hempty in Hin. by apply not_elem_of_empty in Hin.
    + assert (uniqueId a ∈ duplicateUniqueIds items) as Hin.
      { apply elem_of_duplicateUniqueIds. exists i, a. split_and!; [done..|].
        exists a, j, b. done. }
      rewrite Hempty in Hin. by apply not_elem_of_empty in Hin.
  - intros Hnd. apply elem_of_equiv_empty_L. intros k Hk.
    apply elem_of_duplicateUniqueIds in Hk as (i & it & _ & _ & it' & j & jt & Hi & Hlt & Hj & He).
    assert (j = i); [|lia].
    apply (NoDup_lookup _ j i (targetId it') Hnd);
      rewrite list_lookup_fmap; [rewrite Hj|rewrite Hi]; simpl; congruence.
Qed.

Lemma filter_other_keys (items : list LocalItem) : ∀ (i : nat) (it : LocalItem),
  NoDup (uniqueId <$> items) → items !! i = Some it →
  List.filter (λ x, bool_decide (uniqueId x ≠ uniqueId it)) items = remove_at i items.
Proof.
  induction items as [|a items IH]; intros i it Hnd Hi; [done|].
  rewrite fmap_cons in Hnd. apply NoDup_cons in Hnd as [Ha Hnd].
  destruct i as [|i]; cbn in Hi.
  - injection Hi as ->. cbn [List.filter].
    rewrite bool_decide_eq_false_2 by (intros ?; done).
    unfold remove_at. cbn.
    rewrite drop_0. clear IH Hnd. induction items as [|b items IH]; [done|].
    cbn [List.filter]. rewrite fmap_cons, not_elem_of_cons in Ha. destruct Ha as [Hne Ha].
    rewrite bool_decide_eq_true_2 by congruence. f_equal. by apply IH.
  - cbn [List.filter].
    assert (uniqueId a ≠ uniqueId it) as Hne.
    { intros E. apply Ha. rewrite E. apply list_elem_of_fmap. exists it.
      split; [done|]. by eapply list_elem_of_lookup_2. }
    rewrite bool_decide_eq_true_2 by done.
    unfold remove_at. cbn. f_equal. by apply IH.
Qed.

Lemma filter_absent_key (items : list LocalItem) (key : string) :
  key ∉ uniqueId <$> items →
  List.filter (λ x, bool_decide (uniqueId x ≠ key)) items = items.
Proof.
  induction items as [|a items IH]; [done|].
  rewrite fmap_cons, not_elem_of_cons. intros [Hne Hnot]. cbn [List.filter].
  rewrite bool_decide_eq_true_2 by congruence. f_equal. by apply IH.
Qed.

Lemma onRemove_run (h : Host) (key : string) (w : World) :
  onRemove h key w
  = updateFieldValue h (List.filter (λ x, bool_decide (uniqueId x ≠ key)) (w_items w)) w.
Proof. reflexivity. Qed.

Lemma updateFieldValue_resolves (h : Host) (newItems : list LocalItem) (w : World) :
  h_fault h (w_tick w) = false →
  updateFieldValue h newItems w
  = (Ret tt, set_field (link <$> newItems) (next_tick (set_items newItems w))).
Proof.
  intros F. unfold updateFieldValue, bind, modify, await. world_simpl. by rewrite F.
Qed.

Lemma updateFieldValue_rejects (h : Host) (newItems : list LocalItem) (w : World) :
  h_fault h (w_tick w) = true →
  updateFieldValue h newItems w = (Throw "rejected", next_tick (set_items newItems w)).
Proof.
  intros F. unfold updateFieldValue, bind, modify, await. world_simpl. by rewrite F.
Qed.

(** X2: in a Collection with distinct local keys, removing by the key
    of the item at position [i] takes out that item and no other, the
    rest keeping their order; when the field write resolves, the field
    holds the links of the remaining items. *)
Theorem onRemove_removes_one (h : Host) (w : World) (i : nat) (it : LocalItem) :
  NoDup (uniqueId <$> w_items w) →
  w_items w !! i = Some it →
  h_fault h (w_tick w) = false →
  ∃ w', onRemove h (uniqueId it) w = (Ret tt, w')
    ∧ w_items w' = remove_at i (w_items w)
    ∧ w_field w' = link <$> remove_at i (w_items w)
    ∧ length (w_items w') + 1 = length (w_items w).
Proof.
  intros Hnd Hi F. rewrite onRemove_run, (filter_other_keys _ i it Hnd Hi).
  rewrite (updateFieldValue_resolves h _ w F). eexists. split; [reflexivity|].
  world_simpl. split_and!; [done..|].
  pose proof (length_remove_at i (w_items w) (lookup_lt_Some _ _ _ Hi)). lia.
Qed.

Lemma onRemove_removes_one_witness :
  ∃ w', onRemove host0 "k2"
          (set_items [item "k1" "a"; item "k2" "b"; item "k3" "a"] world0) = (Ret tt, w')
    ∧ w_items w' = [item "k1" "a"; item "k3" "a"]
    ∧ w_field w' = [mkLink "a"; mkLink "a"].
Proof.
  destruct (onRemove_removes_one host0
              (set_items [item "k1" "a"; item "k2" "b"; item "k3" "a"] world0)
              1 (item "k2" "b"))
    as (w' & Hrun & Hi & Hf & _);
    [apply (bool_decide_unpack _); vm_compute; exact I|reflexivity|reflexivity|].
  exists w'. done.
Defined.

(** X3: removing by a key that no item carries leaves the items as they
    are, and yet writes the field again (one awaited call). *)
Theorem onRemove_absent_key (h : Host) (w : World) (key : string) :
  key ∉ uniqueId <$> w_items w →
  h_fault h (w_tick w) = false →
  ∃ w', onRemove h key w = (Ret tt, w')
    ∧ w_items w' = w_items w
    ∧ w_field w' = link <$> w_items w
    ∧ w_tick w' = S (w_tick w).
Proof.
  intros Hnot F. rewrite onRemove_run, (filter_absent_key _ _ Hnot).
  rewrite (updateFieldValue_resolves h _ w F). eexists. split; [reflexivity|]. done.
Qed.

Lemma onRemove_absent_key_witness :
  ∃ w', onRemove host0 "zz" (set_items [item "k1" "a"] world0) = (Ret tt, w')
    ∧ w_items w' = [item "k1" "a"] ∧ w_tick w' = 1.
Proof.
  destruct (onRemove_absent_key host0 (set_items [item "k1" "a"] world0) "zz")
    as (w' & Hrun & Hi & _ & Ht); [|reflexivity|].
  - cbn. intros Hin%list_elem_of_singleton. discriminate.
  - exists w'. done.
Defined.

(** X4: when the field write rejects, [onRemove] throws to its caller
    with the items already replaced and the field value as before. *)
Theorem onRemove_write_rejected (h : Host) (w : World) (key : string) :
  h_fault h (w_tick w) = true →
  ∃ w', onRemove h key w = (Throw "rejected", w')
    ∧ (∀ it, it ∈ w_items w' ↔ it ∈ w_items w ∧ uniqueId it ≠ key)
    ∧ w_field w' = w_field w.
Proof.
  intros F. rewrite onRemove_run, (updateFieldValue_rejects h _ w F).
  eexists. split; [reflexivity|]. world_simpl. split; [|done].
  intros it. rewrite !list_elem_of_In, List.filter_In, bool_decide_eq_true. done.
Qed.

Lemma onRemove_write_rejected_witness :
  ∃ w', onRemove (with_fault (λ _, true) host0) "k1"
          (set_field [mkLink "a"] (set_items [item "k1" "a"] world0))
        = (Throw "rejected", w')
    ∧ w_field w' = [mkLink "a"].
Proof.
  destruct (onRemove_write_rejected (with_fault (λ _, true) host0)
              (set_field [mkLink "a"] (set_items [item "k1" "a"] world0)) "k1")
    as (w' & Hrun & _ & Hf); [reflexivity|].
  exists w'. done.
Defined.

Lemma remove_at_perm {A} (i : nat) (x : A) (l : list A) :
  l !! i = Some x → l ≡ₚ x :: remove_at i l.
Proof.
  intros H. unfold remove_at. rewrite <- (take_drop_middle l i x H) at 1.
  symmetry. apply Permutation_middle.
Qed.

Lemma insert_at_perm {A} (i : nat) (x : A) (l : list A) : insert_at i x l ≡ₚ x :: l.
Proof.
  unfold insert_at. rewrite <- Permutation_middle. by rewrite take_drop.
Qed.

(** X5: a drag within bounds only rearranges: the new items are a
    permutation of the old ones, so none is lost or doubled, the length
    is the same and distinct local keys stay distinct. *)
Theorem onDragEnd_rearranges (items : list LocalItem) (from to : Z) :
  (0 ≤ from < Z.of_nat (length items))%Z →
  (0 ≤ to < Z.of_nat (length items))%Z →
  ∃ items',
    onDragEnd {| source_index := from; destination := Some to |} items
    = Some (Some <$> items')
    ∧ items' ≡ₚ items
    ∧ length items' = length items
    ∧ (NoDup (uniqueId <$> items) → NoDup (uniqueId <$> items')).
Proof.
  intros Hfrom Hto.
  destruct (lookup_lt_is_Some_2 items (Z.to_nat from)) as [x Hx]; [lia|].
  exists (insert_at (Z.to_nat to) x (remove_at (Z.to_nat from) items)).
  assert (insert_at (Z.to_nat to) x (remove_at (Z.to_nat from) items) ≡ₚ items) as Hp.
  { rewrite insert_at_perm. symmetry. by apply remove_at_perm. }
  split; [apply onDragEnd_in_range; [done|lia..]|].
  split; [exact Hp|]. split; [by rewrite Hp|].
  intros Hnd. by rewrite Hp.
Qed.

Lemma onDragEnd_rearranges_witness :
  ∃ items',
    onDragEnd {| source_index := 2; destination := Some 0%Z |}
      [item "k1" "a"; item "k2" "b"; item "k3" "c"] = Some (Some <$> items')
    ∧ items' ≡ₚ [item "k1" "a"; item "k2" "b"; item "k3" "c"].
Proof.
  destruct (onDragEnd_rearranges [item "k1" "a"; item "k2" "b"; item "k3" "c"] 2 0)
    as (items' & Hrun & Hp & _); [simpl; lia..|].
  exists items'. done.
Defined.

(** X6: dropping an item where it was picked up leaves the order as it
    is. *)
Theorem onDragEnd_same_place (items : list LocalItem) (i : Z) :
  (0 ≤ i < Z.of_nat (length items))%Z →
  onDragEnd {| source_index := i; destination := Some i |} items = Some (Some <$> items).
Proof.
  intros Hi.
  destruct (lookup_lt_is_Some_2 items (Z.to_nat i)) as [x Hx]; [lia|].
  rewrite (onDragEnd_in_range items i i x Hx) by lia.
  by rewrite insert_remove_at.
Qed.

Lemma onDragEnd_same_place_witness :
  onDragEnd {| source_index := 1; destination := Some 1%Z |}
    [item "k1" "a"; item "k2" "b"]
  = Some (Some <$> [item "k1" "a"; item "k2" "b"]).
Proof. apply onDragEnd_same_place. simpl. lia. Defined.

(** X7: a destination at or past the last position puts the dragged
    item last ([splice] clamps the insertion point). *)
Theorem onDragEnd_destination_clamped (items : list LocalItem) (from to : Z) (x : LocalItem) :
  items !! Z.to_nat from = Some x →
  (0 ≤ from)%Z →
  (Z.of_nat (length items) - 1 ≤ to)%Z →
  onDragEnd {| source_index := from; destination := Some to |} items
  = Some (Some <$> (remove_at (Z.to_nat from) items ++ [x])).
Proof.
  intros Hx Hfrom Hto. pose proof (lookup_lt_Some _ _ _ Hx) as Hlt.
  pose proof (length_remove_at (Z.to_nat from) items Hlt) as Hlen.
  unfold onDragEnd. cbn [destination source_index].
  rewrite splice_remove1_in_range by lia. rewrite Hx.
  unfold splice_insert, splice_start. rewrite length_fmap.
  destruct (Z.ltb_spec to 0); [lia|].
  replace (Z.to_nat (to `min` Z.of_nat (length (remove_at (Z.to_nat from) items))))
    with (length (Some <$> remove_at (Z.to_nat from) items))
    by (rewrite length_fmap; lia).
  rewrite take_ge by done. rewrite drop_all.
  by rewrite fmap_app.
Qed.

Lemma onDragEnd_destination_clamped_witness :
  onDragEnd {| source_index := 0; destination := Some 7%Z |}
    [item "k1" "a"; item "k2" "b"; item "k3" "c"]
  = Some (Some <$> [item "k2" "b"; item "k3" "c"; item "k1" "a"]).
Proof.
  apply (onDragEnd_destination_clamped [item "k1" "a"; item "k2" "b"; item "k3" "c"]
           0 7 (item "k1" "a")); [reflexivity|lia|simpl; lia].
Defined.

(** X8: moving the first item to the top, or the last item to the
    bottom, changes nothing. *)
Theorem onMove_edge_noop (items : list LocalItem) :
  items ≠ [] →
  onMove 0 Top items = Some <$> items
  ∧ onMove (Z.of_nat (length items) - 1) Bottom items = Some <$> items.
Proof.
  intros Hne. assert (0 < length items) as Hlen by (destruct items; [done|cbn; lia]).
  split.
  - destruct items as [|a items]; [done|]. reflexivity.
  - unfold onMove. rewrite splice_remove1_in_range by lia.
    replace (Z.to_nat (Z.of_nat (length items) - 1)) with (length items - 1) by lia.
    destruct (lookup_lt_is_Some_2 items (length items - 1)) as [x Hx]; [lia|].
    rewrite Hx. change [Some x] with (Some <$> [x]). rewrite <- fmap_app. f_equal.
    unfold remove_at. replace (S (length items - 1)) with (length items) by lia.
    rewrite drop_all, app_nil_r.
    rewrite <- (take_drop_middle items (length items - 1) x Hx) at 3.
    replace (S (length items - 1)) with (length items) by lia.
    by rewrite drop_all.
Qed.

Lemma onMove_edge_noop_witness :
  onMove 0 Top [item "k1" "a"; item "k2" "b"] = Some <$> [item "k1" "a"; item "k2" "b"]
  ∧ onMove (Z.of_nat (length [item "k1" "a"; item "k2" "b"]) - 1) Bottom
      [item "k1" "a"; item "k2" "b"]
    = Some <$> [item "k1" "a"; item "k2" "b"].
Proof. apply onMove_edge_noop. done. Defined.

(** X9: with an index at or past the length nothing is taken out, and
    the array handed on holds every item plus an [undefined] slot at the
    chosen edge. *)
Theorem onMove_past_the_end (items : list LocalItem) (index : Z) :
  (Z.of_nat (length items) ≤ index)%Z →
  onMove index Top items = None :: (Some <$> items)
  ∧ onMove index Bottom items = (Some <$> items) ++ [None].
Proof.
  intros Hi. unfold onMove, splice_remove1, splice_start.
  destruct (Z.ltb_spec index 0); [lia|].
  replace (Z.to_nat (index `min` Z.of_nat (length items))) with (length items) by lia.
  rewrite lookup_ge_None_2 by lia.
  rewrite take_ge by lia. rewrite drop_ge by lia. rewrite app_nil_r. done.
Qed.

Lemma onMove_past_the_end_witness :
  onMove 3 Top [item "k1" "a"] = None :: (Some <$> [item "k1" "a"])
  ∧ onMove 3 Bottom [item "k1" "a"] = (Some <$> [item "k1" "a"]) ++ [None].
Proof. apply onMove_past_the_end. simpl. lia. Defined.

(** X10: a negative index counts from the end, as [splice] does: it
    moves the item [-index] places before the end, and an index below
    minus the length moves the first item. *)
Theorem onMove_negative_index (items : list LocalItem) (index : Z) (direction : Direction) :
  (index < 0)%Z →
  onMove index direction items
  = onMove (Z.max (Z.of_nat (length items) + index) 0) direction items.
Proof.
  intros Hi. unfold onMove, splice_remove1.
  assert (splice_start (length items) index
          = splice_start (length items) (Z.max (Z.of_nat (length items) + index) 0)) as ->;
    [|done].
  unfold splice_start.
  destruct (Z.ltb_spec index 0); [|lia].
  destruct (Z.ltb_spec (Z.max (Z.of_nat (length items) + index) 0) 0); [lia|].
  f_equal. lia.
Qed.

Lemma onMove_negative_index_witness :
  onMove (-1) Top [item "k1" "a"; item "k2" "b"; item "k3" "c"]
  = onMove (Z.max (Z.of_nat (length [item "k1" "a"; item "k2" "b"; item "k3" "c"]) + -1) 0)
      Top [item "k1" "a"; item "k2" "b"; item "k3" "c"].
Proof. apply onMove_negative_index. lia. Defined.

Example onMove_negative_sample :
  onMove (-1) Top [item "k1" "a"; item "k2" "b"; item "k3" "c"]
  = [Some (item "k3" "c"); Some (item "k1" "a"); Some (item "k2" "b")].
Proof. reflexivity. Qed.

(* ===================================================================== *)
(** * Further properties: conflict search, unlinking, titles *)
(* ===================================================================== *)

Lemma is_link_to_true (entryId : string) (v : JsVal) :
  is_link_to entryId v = true ↔ v = VLink "Link" "Entry" entryId.
Proof.
  destruct v as [|s|ty lt id|vs]; cbn; try (split; [discriminate|intros [=]]).
  rewrite !andb_true_iff, !bool_decide_eq_true. split.
  - intros [[-> ->] ->]. done.
  - intros [= -> -> ->]. done.
Qed.

Lemma links_to_iff (entryId : string) (value : JsVal) :
  existsb (is_link_to entryId) (as_array value) = true
  ↔ VLink "Link" "Entry" entryId ∈ as_array value.
Proof.
  rewrite existsb_exists. split.
  - intros (v & Hin & Hv). apply is_link_to_true in Hv as ->. by apply list_elem_of_In.
  - intros Hin. exists (VLink "Link" "Entry" entryId).
    split; [by apply list_elem_of_In|]. by apply is_link_to_true.
Qed.

Lemma elem_of_linking_locales (entryId fieldId : string) (entry : Entry)
    (lf : LinkedFromEntry) :
  lf ∈ linking_locales entryId fieldId entry ↔
  lf_entry lf = entry ∧ lf_fieldId lf = fieldId
  ∧ ∃ fieldValue value,
      e_fields entry !! fieldId = Some fieldValue
      ∧ (lf_locale lf, value) ∈ fieldValue
      ∧ VLink "Link" "Entry" entryId ∈ as_array value.
Proof.
  unfold linking_locales. destruct (e_fields entry !! fieldId) as [fv|].
  - rewrite list_elem_of_In, in_flat_map. split.
    + intros ([locale value] & Hin & Hlf).
      destruct (existsb (is_link_to entryId) (as_array value)) eqn:E; [|destruct Hlf].
      destruct Hlf as [<-|[]]. cbn. split_and!; [done..|].
      exists fv, value. split_and!; [done|by apply list_elem_of_In|by apply links_to_iff].
    + intros (<- & <- & fv' & value & [= <-] & Hin & Hv).
      exists (lf_locale lf, value). split; [by apply list_elem_of_In|].
      apply links_to_iff in Hv. rewrite Hv. left. by destruct lf.
  - split; [by intros ?%elem_of_nil|]. intros (_ & _ & ? & ? & [=] & _).
Qed.

Lemma elem_of_linked_from (h : Host) (entryId : string) (items : list Entry)
    (lf : LinkedFromEntry) :
  lf ∈ linked_from h entryId items ↔
  lf_entry lf ∈ items ∧ e_id (lf_entry lf) ≠ h_entryId h
  ∧ lf_fieldId lf = h_fieldId h
  ∧ ∃ fieldValue value,
      e_fields (lf_entry lf) !! h_fieldId h = Some fieldValue
      ∧ (lf_locale lf, value) ∈ fieldValue
      ∧ VLink "Link" "Entry" entryId ∈ as_array value.
Proof.
  unfold linked_from. rewrite list_elem_of_In, in_flat_map. split.
  - intros (entry & Hin & Hlf). case_bool_decide as Hid; [destruct Hlf|].
    apply list_elem_of_In, elem_of_linking_locales in Hlf as (<- & ? & ?).
    split_and!; [by apply list_elem_of_In|done..].
  - intros (Hin & Hid & Hf & Hex). exists (lf_entry lf).
    split; [by apply list_elem_of_In|].
    rewrite bool_decide_eq_false_2 by done.
    apply list_elem_of_In, elem_of_linking_locales. done.
Qed.

(** X11: the conflict search never throws. When the query rejects it
    logs and reports no parent. When it resolves it reports exactly the
    pairs of a returned entry other than the current one and a locale of
    the edited field whose value holds a link to the candidate; the
    reported field is always the edited one. *)
Theorem findExistingLinks_reports (h : Host) (entryId : string) (w : World) :
  ∃ r w', findExistingLinks h entryId w = (Ret r, w')
    ∧ only_logs w w'
    ∧ (h_fault h (w_tick w) = true →
         r = [] ∧ w_console w' = "Error checking existing links:" :: w_console w)
    ∧ (h_fault h (w_tick w) = false →
         w_console w' = w_console w
         ∧ ∀ lf, lf ∈ r ↔
             lf_entry lf ∈ h_links_to h entryId (h_contentTypeId h)
             ∧ e_id (lf_entry lf) ≠ h_entryId h
             ∧ lf_fieldId lf = h_fieldId h
             ∧ ∃ fieldValue value,
                 e_fields (lf_entry lf) !! h_fieldId h = Some fieldValue
                 ∧ (lf_locale lf, value) ∈ fieldValue
                 ∧ VLink "Link" "Entry" entryId ∈ as_array value).
Proof.
  unfold findExistingLinks, try_catch, bind, await, ret, console_error, modify.
  destruct (h_fault h (w_tick w)) eqn:F; eexists _, _; (split; [reflexivity|]);
    (split; [done|]); split; try done.
  intros _. split; [done|]. intros lf. apply elem_of_linked_from.
Qed.

Lemma findExistingLinks_reports_witness :
  ∃ r w', findExistingLinks host_conflict "b" world_conflict = (Ret r, w')
    ∧ (linked_from_P ∈ r)
    ∧ w_console w' = [].
Proof.
  destruct (findExistingLinks_reports host_conflict "b" world_conflict)
    as (r & w' & Hrun & _ & _ & Hok).
  destruct (Hok eq_refl) as [Hc Hiff].
  exists r, w'. split; [exact Hrun|]. split; [|exact Hc].
  apply Hiff. cbn. split_and!.
  - rewrite bool_decide_eq_true_2 by done. by apply list_elem_of_singleton.
  - done.
  - done.
  - eexists _, _. split; [reflexivity|]. split; [by apply list_elem_of_singleton|].
    cbn. left.
Defined.

Lemma locale_get_set_ne (locale other : string) (v : JsVal) (m : LocaleMap) :
  other ≠ locale → locale_get other (locale_set locale v m) = locale_get other m.
Proof.
  intros Hne. induction m as [|[k x] m IH]; cbn.
  - by rewrite decide_False.
  - destruct (decide (k = locale)) as [->|Hk]; cbn.
    + by rewrite !decide_False by done.
    + destruct (decide (k = other)); [done|exact IH].
Qed.

Lemma read_assign_field_ne (p : Entry) (f locale f' locale' : string) (v : JsVal) :
  is_Some (e_fields p !! f) →
  (f', locale') ≠ (f, locale) →
  read_field (assign_field p f locale v) f' locale' = read_field p f' locale'.
Proof.
  intros [m Hm] Hne. unfold read_field, assign_field. cbn [e_fields].
  destruct (decide (f' = f)) as [->|Hf].
  - rewrite lookup_insert_eq. simpl. rewrite locale_get_set_ne by congruence.
    unfold LocaleMap in *. by rewrite Hm.
  - by rewrite lookup_insert_ne.
Qed.

(** X12: a successful unlinking rewrites one value only. The stored
    parent keeps its id, type and version counters; every other field
    and every other locale of the field reads as before; and the new
    value holds, in their order, exactly the elements of the old value
    that are not a link to the target. *)
Theorem removeLinkFromEntry_rewrites_one_value (h : Host)
    (parent f locale target : string) (w w' : World) :
  removeLinkFromEntry h parent f locale target w = (Ret true, w') →
  ∃ p p' old,
    w_store w !! parent = Some p
    ∧ w_store w' !! parent = Some p'
    ∧ read_field p f locale = Some old
    ∧ read_field p' f locale
      = Some (VArr (List.filter (λ l, negb (is_link_to target l)) (as_array old)))
    ∧ (∀ f' locale', (f', locale') ≠ (f, locale) →
         read_field p' f' locale' = read_field p f' locale')
    ∧ e_id p' = e_id p ∧ e_contentType p' = e_contentType p
    ∧ e_version p' = e_version p
    ∧ e_publishedVersion p' = e_publishedVersion p
    ∧ e_archivedVersion p' = e_archivedVersion p.
Proof.
  intros Hrun.
  destruct (removeLinkFromEntry_spec h parent f locale target w)
    as (b & w'' & Hrun' & _ & _ & Hcase).
  rewrite Hrun in Hrun'. injection Hrun' as <- <-.
  destruct Hcase as [(_ & _ & _ & p & v & Hp & Hv & _ & Hst)|[[=] _]].
  exists p, (assign_field p f locale (without_link target v)), v.
  split_and!; try done.
  - rewrite Hst. by rewrite lookup_insert_eq.
  - apply read_assign_field.
  - intros f' locale' Hne. apply read_assign_field_ne; [|done].
    unfold read_field in Hv. destruct (e_fields p !! f); [eauto|discriminate].
Qed.

Lemma removeLinkFromEntry_rewrites_one_value_witness :
  ∃ p', w_store (removeLinkFromEntry host0 "P" "sections" "en-US" "b" world_conflict).2
          !! "P" = Some p'
      ∧ read_field p' "sections" "en-US" = Some (VArr [VLink "Link" "Entry" "c"]).
Proof.
  destruct (removeLinkFromEntry_rewrites_one_value host0 "P" "sections" "en-US" "b"
              world_conflict
              (removeLinkFromEntry host0 "P" "sections" "en-US" "b" world_conflict).2)
    as (p & p' & old & Hp & Hp' & Hold & Hnew & _); [vm_compute; reflexivity|].
  exists p'. split; [exact Hp'|].
  vm_compute in Hp. injection Hp as <-.
  vm_compute in Hold. injection Hold as <-.
  rewrite Hnew. reflexivity.
Defined.

(** X13: when the freshly fetched parent has no value, or a falsy one,
    under that field and locale, the unlinking answers [false] after the
    single fetch: no write is attempted and nothing is logged. *)
Theorem removeLinkFromEntry_nothing_to_unlink (h : Host)
    (parent f locale target : string) (w : World) (p : Entry) :
  h_fault h (w_tick w) = false →
  w_store w !! parent = Some p →
  from_option truthy false (read_field p f locale) = false →
  removeLinkFromEntry h parent f locale target w = (Ret false, next_tick w).
Proof.
  intros F Hp Hv.
  unfold removeLinkFromEntry, cma_entry_get, try_catch, bind, await, ret.
  rewrite F. world_simpl. rewrite Hp.
  destruct (read_field p f locale) as [v|]; [|done].
  cbn in Hv. rewrite Hv. done.
Qed.

Lemma removeLinkFromEntry_nothing_to_unlink_witness :
  removeLinkFromEntry host0 "P" "sections" "de-DE" "b" world_conflict
  = (Ret false, next_tick world_conflict).
Proof.
  apply (removeLinkFromEntry_nothing_to_unlink host0 "P" "sections" "de-DE" "b"
           world_conflict (page "P" ["b"; "c"])); reflexivity.
Defined.

(** X14: when the type of an entry is neither cached nor obtainable
    (the lookup rejects or finds nothing), its title is ["Untitled"],
    after that one call and without a throw. *)
Theorem getEntryTitle_type_unavailable (h : Host) (entry : Entry) (w : World) :
  w_contentTypes w !! e_contentType entry = None →
  h_fault h (w_tick w) = true ∨ h_contentType h (e_contentType entry) = None →
  getEntryTitle h entry w = (Ret "Untitled", next_tick w).
Proof.
  intros Hc Hget. unfold getEntryTitle, try_catch, bind, gets, await, ret, throw.
  rewrite Hc. destruct (h_fault h (w_tick w)); [done|].
  destruct Hget as [Hf| ->]; [discriminate|done].
Qed.

Lemma getEntryTitle_type_unavailable_witness :
  getEntryTitle host0 (section "s") world0 = (Ret "Untitled", next_tick world0).
Proof. apply getEntryTitle_type_unavailable; [reflexivity|by right]. Defined.

(** X15: for an entry whose type is cached, the title of the move
    dialog is found without any call, and it is the text of the title
    the card shows whenever that one is truthy, ["Untitled"] otherwise
    (the card then shows an empty or undefined title). *)
Theorem getEntryTitle_agrees_with_card (h : Host) (entry : Entry) (ct : ContentType)
    (w : World) (isLoading : bool) :
  w_contentTypes w !! e_contentType entry = Some ct →
  getEntryTitle h entry w
  = (Ret (if truthy (card_title h (Some entry) (Some ct) isLoading)
          then js_string (card_title h (Some entry) (Some ct) isLoading)
          else "Untitled"), w).
Proof.
  intros Hc. unfold getEntryTitle, card_title, try_catch, bind, gets, ret.
  rewrite Hc. destruct (e_fields entry !! ct_displayField ct) as [values|]; [|done].
  cbn zeta.
  destruct (truthy (default VNull (locale_get (h_locale h) values))) eqn:T1.
  - by rewrite T1.
  - destruct (truthy (default VNull (snd <$> head values))) eqn:T2; by rewrite ?T2.
Qed.

Lemma getEntryTitle_agrees_with_card_witness :
  getEntryTitle host0
    {| e_id := "s"; e_contentType := "section"; e_version := 1;
       e_publishedVersion := None; e_archivedVersion := None;
       e_fields := {[ "title" := [("de-DE", VText "Abschnitt")] ]} |}
    (set_contentTypes {[ "section" := section_type ]} world0)
  = (Ret "Abschnitt", set_contentTypes {[ "section" := section_type ]} world0).
Proof.
  exact (getEntryTitle_agrees_with_card host0
           {| e_id := "s"; e_contentType := "section"; e_version := 1;
              e_publishedVersion := None; e_archivedVersion := None;
              e_fields := {[ "title" := [("de-DE", VText "Abschnitt")] ]} |}
           section_type
           (set_contentTypes {[ "section" := section_type ]} world0) false eq_refl).
Defined.

(* ===================================================================== *)
(** * Further properties: adding, navigating, creating *)
(* ===================================================================== *)

(** X16: when the picker is dismissed, or closed with nothing selected,
    the handler does nothing beyond that one call: no notice, no log, no
    change to the Collection, the field value or the store. *)
Theorem onAddExisting_nothing_selected (h : Host) (w : World) :
  h_fault h (w_tick w) = false →
  h_picked h (picker_options h) = None ∨ h_picked h (picker_options h) = Some [] →
  onAddExisting h w = (Ret tt, next_tick w).
Proof.
  intros F Hpick. unfold onAddExisting. unfold bind at 1, gets at 1.
  unfold try_catch, selectMultipleEntries. unfold bind at 1, await at 1, ret at 1.
  rewrite F. destruct Hpick as [-> | ->]; reflexivity.
Qed.

Lemma onAddExisting_nothing_selected_witness :
  onAddExisting host0 world_conflict = (Ret tt, next_tick world_conflict).
Proof. apply onAddExisting_nothing_selected; [reflexivity|by left]. Defined.

(** X17: a declined move leaves both sides alone: the candidate does
    not join the entries to add, nothing is fetched or written at the old
    parent, no notice is sent, and the Collection and field value are as
    before. *)
Theorem move_one_declined (h : Host) (entry : Entry) (linkedFrom : LinkedFromEntry)
    (entriesToAdd : list Entry) (w w1 : World) (entryTitle sourceEntryTitle : string) :
  ask_move h entry linkedFrom w = (Ret (entryTitle, sourceEntryTitle, false), w1) →
  move_one h (entry, linkedFrom) entriesToAdd w = (Ret entriesToAdd, w1)
  ∧ w_store w1 = w_store w ∧ w_notes w1 = w_notes w
  ∧ w_items w1 = w_items w ∧ w_field w1 = w_field w
  ∧ w_console w1 = w_console w.
Proof.
  intros Hask.
  destruct (ask_move_runs h entry linkedFrom w) as (r & w1' & Hask' & Fask).
  rewrite Hask in Hask'. injection Hask' as <- <-.
  destruct (only_ticks_remote _ _ Fask) as [Hs Hn].
  destruct (keeps_collection_items _ _ (only_logs_keeps _ _ (only_ticks_logs _ _ Fask)))
    as [Hi Hf].
  split; [|split_and!; try done; apply Fask].
  unfold move_one. unfold bind at 1. by rewrite Hask.
Qed.

Lemma move_one_declined_witness :
  ∃ w1, move_one host_dialog_declines (section "b", linked_from_P) [section "a"]
          world_conflict = (Ret [section "a"], w1)
      ∧ w_store w1 = w_store world_conflict.
Proof.
  destruct (move_one_declined host_dialog_declines (section "b") linked_from_P
              [section "a"] world_conflict
              (ask_move host_dialog_declines (section "b") linked_from_P world_conflict).2
              "Untitled" "Untitled")
    as (Hrun & Hs & _); [vm_compute; reflexivity|].
  eexists. split; [exact Hrun|exact Hs].
Defined.

Lemma findExistingLinks_run (h : Host) (entryId : string) (w : World) :
  findExistingLinks h entryId w
  = if h_fault h (w_tick w)
    then (Ret [], add_console "Error checking existing links:" (next_tick w))
    else (Ret (linked_from h entryId (h_links_to h entryId (h_contentTypeId h))),
          next_tick w).
Proof.
  unfold findExistingLinks, try_catch, bind, await, ret, console_error, modify.
  by destruct (h_fault h (w_tick w)).
Qed.

(** Candidates whose conflict search rejects or reports no parent all go
    to the entries to add, each search costing one call. *)
Lemma classify_no_conflicts (h : Host) (newEntries : list Entry) :
  ∀ (entriesToAdd : list Entry) (entriesToMove : list (Entry * LinkedFromEntry))
    (w : World),
  (∀ i e, newEntries !! i = Some e →
     h_fault h (w_tick w + i) = true
     ∨ linked_from h (e_id e) (h_links_to h (e_id e) (h_contentTypeId h)) = []) →
  ∃ w', classify h newEntries entriesToAdd entriesToMove w
        = (Ret (entriesToAdd ++ newEntries, entriesToMove), w')
    ∧ only_logs w w'
    ∧ w_tick w' = w_tick w + length newEntries.
Proof.
  induction newEntries as [|entry rest IH]; intros a m w Hfree.
  - exists w. cbn. rewrite app_nil_r, Nat.add_0_r. done.
  - cbn [classify]. unfold bind at 1. rewrite findExistingLinks_run.
    assert (∃ w1, (if h_fault h (w_tick w)
                   then (Ret [], add_console "Error checking existing links:" (next_tick w))
                   else (Ret (linked_from h (e_id entry)
                                (h_links_to h (e_id entry) (h_contentTypeId h))),
                         next_tick w))
                  = (Ret [], w1) ∧ only_logs w w1 ∧ w_tick w1 = S (w_tick w))
      as (w1 & -> & F1 & Ht1).
    { destruct (Hfree 0 entry eq_refl) as [Hf|Hl].
      - rewrite Nat.add_0_r in Hf. rewrite Hf. eexists. done.
      - rewrite Hl. destruct (h_fault h (w_tick w)); eexists; done. }
    destruct (IH (a ++ [entry]) m w1) as (w' & Hc & F2 & Ht2).
    { intros i e Hi. rewrite Ht1.
      replace (S (w_tick w) + i) with (w_tick w + S i) by lia. by apply Hfree. }
    exists w'. rewrite Hc, <- app_assoc. split; [done|].
    split; [eapply only_logs_trans; eauto|]. rewrite Ht2, Ht1. cbn. lia.
Qed.

(** X18: when the picker resolves, some selected entries are new, the
    conflict search of each new entry rejects or reports no parent, and
    the field write resolves, then exactly the new entries are appended,
    in their order, each under a fresh item; the field holds the links of
    the items; the store is not touched; and the notice that duplicates
    were skipped is sent exactly when some selected entry was not new. *)
Theorem onAddExisting_adds_unlinked (h : Host) (w : World) (selectedEntries : list Entry) :
  h_fault h (w_tick w) = false →
  h_picked h (picker_options h) = Some selectedEntries →
  new_entries (w_items w) selectedEntries ≠ [] →
  (∀ i e, new_entries (w_items w) selectedEntries !! i = Some e →
     h_fault h (S (w_tick w) + i) = true
     ∨ linked_from h (e_id e) (h_links_to h (e_id e) (h_contentTypeId h)) = []) →
  h_fault h (S (w_tick w) + length (new_entries (w_items w) selectedEntries)) = false →
  ∃ w' newLocalItems,
    onAddExisting h w = (Ret tt, w')
    ∧ w_items w' = w_items w ++ newLocalItems
    ∧ targetId <$> newLocalItems = e_id <$> new_entries (w_items w) selectedEntries
    ∧ w_field w' = link <$> w_items w'
    ∧ w_store w' = w_store w
    ∧ w_notes w'
      = (if bool_decide (length (new_entries (w_items w) selectedEntries)
                         < length selectedEntries)
         then [NSuccess (added_text (length (new_entries (w_items w) selectedEntries)))]
         else []) ++ w_notes w.
Proof.
  intros F Hpick Hnew Hfree Fset.
  destruct (classify_no_conflicts h (new_entries (w_items w) selectedEntries) [] []
              (next_tick w) Hfree) as (w1 & Hc & F1 & Ht1).
  cbn [app] in Hc. world_simpl.
  destruct (wrap_links_run h
              ((λ entry, mkLink (e_id entry)) <$> new_entries (w_items w) selectedEntries) w1)
    as (newLocalItems & w2 & Hw & Hl & _ & _ & Hv2 & Hi2 & Hf2 & Ht2 & _).
  exists (if bool_decide (length (new_entries (w_items w) selectedEntries)
                          < length selectedEntries)
          then add_note
                 (NSuccess (added_text (length (new_entries (w_items w) selectedEntries))))
                 (set_field (link <$> (w_items w ++ newLocalItems))
                    (next_tick (set_items (w_items w ++ newLocalItems) w2)))
          else set_field (link <$> (w_items w ++ newLocalItems))
                 (next_tick (set_items (w_items w ++ newLocalItems) w2))),
         newLocalItems.
  assert (w_store w2 = w_store w ∧ w_notes w2 = w_notes w) as [Hs Hn].
  { destruct F1 as [_ Hr]. unfold view_remote in *. world_simpl. split; congruence. }
  split.
  - unfold onAddExisting. unfold bind at 1, gets at 1.
    unfold try_catch, selectMultipleEntries. unfold bind at 1, await at 1, ret at 1.
    rewrite F, Hpick. unfold add_selected.
    rewrite (bool_decide_eq_false_2
               (length (new_entries (w_items w) selectedEntries) = 0))
      by (by destruct (new_entries (w_items w) selectedEntries)).
    cbn [andb]. unfold bind at 1. rewrite Hc.
    unfold bind at 1. cbn [move_all]. unfold ret at 1.
    rewrite (bool_decide_eq_false_2
               (length (new_entries (w_items w) selectedEntries) = 0))
      by (by destruct (new_entries (w_items w) selectedEntries)).
    unfold bind at 1, wrap_entries. rewrite Hw.
    unfold bind at 1. rewrite updateFieldValue_resolves by (by rewrite Ht2, Ht1).
    cbn [length]. rewrite (bool_decide_eq_true_2 (0 = 0)) by done. rewrite andb_true_r.
    by destruct (bool_decide (length (new_entries (w_items w) selectedEntries)
                              < length selectedEntries)).
  - assert (targetId <$> newLocalItems
            = e_id <$> new_entries (w_items w) selectedEntries) as Htargets.
    { unfold targetId. rewrite (list_fmap_compose link link_id), Hl, <- list_fmap_compose.
      done. }
    destruct (bool_decide (length (new_entries (w_items w) selectedEntries)
                           < length selectedEntries)); world_simpl;
      split_and!; try done; cbn; congruence.
Qed.

Lemma onAddExisting_adds_unlinked_witness :
  ∃ w', onAddExisting (with_picked (Some [section "a"; section "b"]) host0)
          (set_field [mkLink "a"] (set_items [item "k" "a"] world0)) = (Ret tt, w')
      ∧ w_field w' = [mkLink "a"; mkLink "b"]
      ∧ w_notes w' = [NSuccess (added_text 1)].
Proof.
  destruct (onAddExisting_adds_unlinked (with_picked (Some [section "a"; section "b"]) host0)
              (set_field [mkLink "a"] (set_items [item "k" "a"] world0))
              [section "a"; section "b"])
    as (w' & newLocalItems & Hrun & Hi & Ht & Hf & _ & Hn);
    [reflexivity|reflexivity|by vm_compute| |reflexivity|].
  - intros i e _. by right.
  - exists w'. split; [exact Hrun|]. split.
    + rewrite Hf, Hi, fmap_app. cbn. f_equal.
      destruct newLocalItems as [|x [|y l]]; vm_compute in Ht; try discriminate.
      injection Ht as Hx. destruct x as [key [id]]. cbn in *. by subst.
    + exact Hn.
Defined.

Lemma add_selected_in_step (h : Host) (items : list LocalItem) (selectedEntries : list Entry)
    (w w' : World) :
  w_items w = items → w_field w = link <$> items →
  add_selected h items selectedEntries w = (Ret tt, w') →
  w_field w' = link <$> w_items w'.
Proof.
  intros Hi Hf Hrun. unfold add_selected in Hrun.
  destruct (bool_decide (length (new_entries items selectedEntries) = 0)
            && bool_decide (0 < length selectedEntries)).
  { injection Hrun as <-. world_simpl. congruence. }
  destruct (classify_runs h (new_entries items selectedEntries) [] [] w)
    as (a0 & m0 & w1 & Hc & F1 & _).
  unfold bind at 1 in Hrun. rewrite Hc in Hrun.
  destruct (move_all_runs h m0 a0 w1) as (r & w2 & Hmv & F2 & _).
  unfold bind at 1 in Hrun. rewrite Hmv in Hrun.
  destruct (keeps_collection_items _ _ (only_logs_keeps _ _ F1)) as [Hi1 Hf1].
  destruct (keeps_collection_items _ _ F2) as [Hi2 Hf2].
  destruct r as [entriesToAdd|err]; [|discriminate].
  destruct (bool_decide (length entriesToAdd = 0)).
  { injection Hrun as <-. congruence. }
  unfold wrap_entries in Hrun.
  destruct (wrap_links_run h ((λ entry, mkLink (e_id entry)) <$> entriesToAdd) w2)
    as (newLocalItems & w3 & Hw & _).
  unfold bind at 1 in Hrun. rewrite Hw in Hrun. unfold bind at 1 in Hrun.
  destruct (h_fault h (w_tick w3)) eqn:F.
  - rewrite (updateFieldValue_rejects h _ w3 F) in Hrun. discriminate.
  - rewrite (updateFieldValue_resolves h _ w3 F) in Hrun.
    destruct (bool_decide (length entriesToAdd < length selectedEntries)
              && bool_decide (length m0 = 0));
      injection Hrun as <-; done.
Qed.

Lemma add_selected_throw_field (h : Host) (items : list LocalItem)
    (selectedEntries : list Entry) (w w' : World) (err : string) :
  add_selected h items selectedEntries w = (Throw err, w') →
  w_field w' = w_field w.
Proof.
  intros Hrun. unfold add_selected in Hrun.
  destruct (bool_decide (length (new_entries items selectedEntries) = 0)
            && bool_decide (0 < length selectedEntries)); [discriminate|].
  destruct (classify_runs h (new_entries items selectedEntries) [] [] w)
    as (a0 & m0 & w1 & Hc & F1 & _).
  unfold bind at 1 in Hrun. rewrite Hc in Hrun.
  destruct (move_all_runs h m0 a0 w1) as (r & w2 & Hmv & F2 & _).
  unfold bind at 1 in Hrun. rewrite Hmv in Hrun.
  destruct (keeps_collection_items _ _ (only_logs_keeps _ _ F1)) as [_ Hf1].
  destruct (keeps_collection_items _ _ F2) as [_ Hf2].
  destruct r as [entriesToAdd|err']; [|injection Hrun as _ <-; congruence].
  destruct (bool_decide (length entriesToAdd = 0)); [discriminate|].
  unfold wrap_entries in Hrun.
  destruct (wrap_links_run h ((λ entry, mkLink (e_id entry)) <$> entriesToAdd) w2)
    as (newLocalItems & w3 & Hw & _ & _ & _ & _ & _ & Hf3 & _).
  unfold bind at 1 in Hrun. rewrite Hw in Hrun. unfold bind at 1 in Hrun.
  destruct (h_fault h (w_tick w3)) eqn:F.
  - rewrite (updateFieldValue_rejects h _ w3 F) in Hrun. injection Hrun as _ <-.
    world_simpl. congruence.
  - rewrite (updateFieldValue_resolves h _ w3 F) in Hrun.
    destruct (bool_decide (length entriesToAdd < length selectedEntries)
              && bool_decide (length m0 = 0)); discriminate.
Qed.

(** X19: [onAddExisting] never lets the field fall behind silently.
    When the field holds the links of the items before: if the [try]
    block of the handler completes, the field holds the links of the
    items afterwards; and if it throws, the [catch] logs that very error
    on top of the world the throw left, in which the field value is the
    one from before. *)
Theorem onAddExisting_in_step_or_logged (h : Host) (w : World) :
  w_field w = link <$> w_items w →
  ∃ r w1,
    onAddExisting_try h (w_items w) w = (r, w1)
    ∧ onAddExisting h w
      = (Ret tt, match r with Ret _ => w1 | Throw err => add_console err w1 end)
    ∧ (∀ u, r = Ret u → w_field w1 = link <$> w_items w1)
    ∧ (∀ err, r = Throw err → w_field w1 = w_field w).
Proof.
  intros Hsync.
  destruct (onAddExisting_try h (w_items w) w) as [r w1] eqn:Htry.
  exists r, w1. split; [done|]. split.
  { unfold onAddExisting. unfold bind at 1, gets at 1. unfold try_catch.
    unfold onAddExisting_try in Htry. rewrite Htry. by destruct r as [[]|err]. }
  unfold onAddExisting_try, selectMultipleEntries in Htry.
  unfold bind at 1, await at 1, ret at 1 in Htry.
  destruct (h_fault h (w_tick w)).
  { injection Htry as <- <-. split; [discriminate|]. done. }
  destruct (h_picked h (picker_options h)) as [sel|].
  2:{ injection Htry as <- <-. split; done. }
  split.
  - intros [] ->.
    by apply (add_selected_in_step h (w_items w) sel (next_tick w) w1).
  - intros err ->.
    by rewrite (add_selected_throw_field h (w_items w) sel (next_tick w) w1 err Htry).
Qed.

Lemma onAddExisting_in_step_or_logged_witness :
  ∃ w', onAddExisting host_conflict world_conflict = (Ret tt, w')
      ∧ w_field w' = link <$> w_items w'.
Proof.
  destruct (onAddExisting_in_step_or_logged host_conflict world_conflict)
    as (r & w1 & Htry & Hrun & Hret & _); [reflexivity|].
  assert (r = Ret tt) as ->.
  { assert ((onAddExisting_try host_conflict (w_items world_conflict)
               world_conflict).1 = Ret tt) as E by (vm_compute; reflexivity).
    by rewrite Htry in E. }
  exists w1. split; [exact Hrun|]. by apply (Hret tt).
Defined.

Example onAddExisting_field_write_rejected :
  (onAddExisting_try (with_fault (λ n, bool_decide (n = 2))
                        (with_picked (Some [section "a"]) host0)) [] world0).1
  = Throw "rejected"
  ∧ w_items (onAddExisting (with_fault (λ n, bool_decide (n = 2))
                              (with_picked (Some [section "a"]) host0)) world0).2
    = [item "k0zzzzzzz" "a"]
  ∧ w_field (onAddExisting (with_fault (λ n, bool_decide (n = 2))
                              (with_picked (Some [section "a"]) host0)) world0).2 = []
  ∧ w_console (onAddExisting (with_fault (λ n, bool_decide (n = 2))
                                (with_picked (Some [section "a"]) host0)) world0).2
    = ["rejected"].
Proof. vm_compute. repeat split; reflexivity. Qed.

(** X20: one refresh per navigation. Opening a linked entry arms the
    flag whether or not the navigation resolves; the first of the two
    triggers to fire afterwards runs one fetch of the current links and
    disarms it; the other trigger, and any later one, then changes
    nothing at all. *)
Theorem refresh_runs_once (h : Host) (entryId : string) (w : World) :
  ∃ w1 w2,
    onEditEntry h entryId w = (Ret true, w1)
    ∧ w_items w1 = w_items w
    ∧ fetchData h (link <$> w_items w) w1 = (Ret tt, w2)
    ∧ handleMouseEnter h true w1 = (Ret false, w2)
    ∧ onFocus h true w1 = (Ret false, w2)
    ∧ handleMouseEnter h false w2 = (Ret false, w2)
    ∧ onFocus h false w2 = (Ret false, w2).
Proof.
  assert (∃ w1, onEditEntry h entryId w = (Ret true, w1) ∧ w_items w1 = w_items w)
    as (w1 & Hedit & Hi).
  { unfold onEditEntry, navigator_openEntry, try_catch, bind, await, ret, console_error,
      modify.
    destruct (h_fault h (w_tick w)); eexists; done. }
  destruct (fetchData_keeps_items h (link <$> w_items w) w1) as (w2 & Hfetch & _).
  exists w1, w2. split_and!; try done.
  - unfold handleMouseEnter. unfold bind at 1, gets at 1. rewrite Hi.
    unfold bind at 1. by rewrite Hfetch.
  - unfold onFocus. unfold bind at 1, gets at 1. rewrite Hi.
    unfold bind at 1. by rewrite Hfetch.
Qed.

Lemma onCreateNew_no_create (h : Host) (contentTypeId : string) (created : Entry)
    (isNavigating : bool) (w : World) :
  h_fault h (w_tick w) = true →
  onCreateNew h contentTypeId created isNavigating w
  = (Ret isNavigating,
     add_note (NError "Could not create entry. Check console for details.")
       (add_console "Error creating entry" (next_tick w))).
Proof.
  intros F.
  unfold onCreateNew, cma_entry_create, report_create_failure, try_catch, bind, gets,
    await, ret, console_error, notifier, modify.
  by rewrite F.
Qed.

(** X21: when the creation rejects, [onCreateNew] does not throw; it
    logs, sends the error notice, and leaves the Collection, the field
    value, the store and the navigation flag as they were. *)
Theorem onCreateNew_create_rejected (h : Host) (contentTypeId : string) (created : Entry)
    (isNavigating : bool) (w : World) :
  h_fault h (w_tick w) = true →
  ∃ w', onCreateNew h contentTypeId created isNavigating w = (Ret isNavigating, w')
    ∧ w_items w' = w_items w ∧ w_field w' = w_field w ∧ w_store w' = w_store w
    ∧ w_notes w' = NError "Could not create entry. Check console for details." :: w_notes w
    ∧ w_console w' = "Error creating entry" :: w_console w.
Proof.
  intros F. rewrite (onCreateNew_no_create h _ _ _ _ F). eexists. done.
Qed.

Lemma onCreateNew_create_rejected_witness :
  ∃ w', onCreateNew (with_fault (λ _, true) host0) "section" (section "n") false
          world_conflict = (Ret false, w')
      ∧ w_items w' = [] ∧ w_store w' = w_store world_conflict.
Proof.
  destruct (onCreateNew_create_rejected (with_fault (λ _, true) host0) "section"
              (section "n") false world_conflict)
    as (w' & Hrun & Hi & _ & Hs & _); [reflexivity|].
  exists w'. done.
Defined.

Lemma onCreateNew_run (h : Host) (contentTypeId : string) (created : Entry)
    (isNavigating : bool) (w : World) :
  h_fault h (w_tick w) = false →
  let key := substring_2_11 (h_random h (w_rand w)) in
  let newItems := w_items w ++ [{| uniqueId := key; link := mkLink (e_id created) |}] in
  let w1 := set_items newItems
              (next_rand (set_store (<[e_id created := created]> (w_store w))
                            (next_tick w))) in
  onCreateNew h contentTypeId created isNavigating w
  = if h_fault h (S (w_tick w)) then
      (Ret isNavigating,
       add_note (NError "Could not create entry. Check console for details.")
         (add_console "Error creating entry" (next_tick w1)))
    else if h_fault h (S (S (w_tick w))) then
      (Ret true,
       add_note (NError "Could not create entry. Check console for details.")
         (add_console "Error creating entry"
            (next_tick (set_field (link <$> newItems) (next_tick w1)))))
    else (Ret true, next_tick (set_field (link <$> newItems) (next_tick w1))).
Proof.
  intros F. cbn zeta.
  unfold onCreateNew, cma_entry_create, generateUniqueId, updateFieldValue,
    navigator_openEntry, report_create_failure, try_catch, bind, gets,
    await, ret, console_error, notifier, modify.
  rewrite F. world_simpl.
  destruct (h_fault h (S (w_tick w))); [reflexivity|]. world_simpl.
  destruct (h_fault h (S (S (w_tick w)))); reflexivity.
Qed.

(** X22: when the creation, the field write and the navigation all
    resolve, the created entry is in the store, one item with a fresh key
    and the created id is appended to the Collection, the field holds the
    links of the items, no notice is sent, and the navigation flag is
    armed. *)
Theorem onCreateNew_links_created (h : Host) (contentTypeId : string) (created : Entry)
    (isNavigating : bool) (w : World) :
  h_fault h (w_tick w) = false →
  h_fault h (S (w_tick w)) = false →
  h_fault h (S (S (w_tick w))) = false →
  ∃ w', onCreateNew h contentTypeId created isNavigating w = (Ret true, w')
    ∧ w_items w'
      = w_items w ++ [{| uniqueId := substring_2_11 (h_random h (w_rand w));
                         link := mkLink (e_id created) |}]
    ∧ w_field w' = link <$> w_items w'
    ∧ w_store w' !! e_id created = Some created
    ∧ w_notes w' = w_notes w ∧ w_console w' = w_console w.
Proof.
  intros F0 F1 F2. rewrite (onCreateNew_run h _ _ _ _ F0). cbn zeta. rewrite F1, F2.
  eexists. split; [reflexivity|]. world_simpl. split_and!; try done.
  apply lookup_insert_eq.
Qed.

Lemma onCreateNew_links_created_witness :
  ∃ w', onCreateNew host0 "section" (section "n") false world0 = (Ret true, w')
      ∧ w_items w' = [item "k0zzzzzzz" "n"]
      ∧ w_field w' = [mkLink "n"].
Proof.
  destruct (onCreateNew_links_created host0 "section" (section "n") false world0)
    as (w' & Hrun & Hi & Hf & _); [reflexivity..|].
  exists w'. split; [exact Hrun|]. rewrite Hf, Hi. split; reflexivity.
Defined.

(** X23: when only the navigation rejects, the entry stays created and
    linked (store, Collection and field all hold it) and the flag is
    armed, and yet the notice that the entry could not be created is
    sent. *)
Theorem onCreateNew_navigation_rejected (h : Host) (contentTypeId : string)
    (created : Entry) (isNavigating : bool) (w : World) :
  h_fault h (w_tick w) = false →
  h_fault h (S (w_tick w)) = false →
  h_fault h (S (S (w_tick w))) = true →
  ∃ w', onCreateNew h contentTypeId created isNavigating w = (Ret true, w')
    ∧ w_items w'
      = w_items w ++ [{| uniqueId := substring_2_11 (h_random h (w_rand w));
                         link := mkLink (e_id created) |}]
    ∧ w_field w' = link <$> w_items w'
    ∧ w_store w' !! e_id created = Some created
    ∧ w_notes w' = NError "Could not create entry. Check console for details." :: w_notes w.
Proof.
  intros F0 F1 F2. rewrite (onCreateNew_run h _ _ _ _ F0). cbn zeta. rewrite F1, F2.
  eexists. split; [reflexivity|]. world_simpl. split_and!; try done.
  apply lookup_insert_eq.
Qed.

Lemma onCreateNew_navigation_rejected_witness :
  ∃ w', onCreateNew (with_fault (λ n, bool_decide (n = 2)) host0) "section" (section "n")
          false world0 = (Ret true, w')
      ∧ w_field w' = [mkLink "n"]
      ∧ w_notes w' = [NError "Could not create entry. Check console for details."].
Proof.
  destruct (onCreateNew_navigation_rejected (with_fault (λ n, bool_decide (n = 2)) host0)
              "section" (section "n") false world0)
    as (w' & Hrun & Hi & Hf & _ & Hn); [reflexivity..|].
  exists w'. split; [exact Hrun|]. rewrite Hf, Hi. split; [reflexivity|exact Hn].
Defined.

(** X24: when the creation resolves and the field write rejects, the
    created entry is in the store but not in the field value, which is as
    before, while the Collection already shows the new item; the error
    notice is sent and the navigation flag is not touched. *)
Theorem onCreateNew_write_rejected (h : Host) (contentTypeId : string)
    (created : Entry) (isNavigating : bool) (w : World) :
  h_fault h (w_tick w) = false →
  h_fault h (S (w_tick w)) = true →
  ∃ w', onCreateNew h contentTypeId created isNavigating w = (Ret isNavigating, w')
    ∧ w_store w' !! e_id created = Some created
    ∧ w_field w' = w_field w
    ∧ w_items w'
      = w_items w ++ [{| uniqueId := substring_2_11 (h_random h (w_rand w));
                         link := mkLink (e_id created) |}]
    ∧ w_notes w' = NError "Could not create entry. Check console for details." :: w_notes w.
Proof.
  intros F0 F1. rewrite (onCreateNew_run h _ _ _ _ F0). cbn zeta. rewrite F1.
  eexists. split; [reflexivity|]. world_simpl. split_and!; try done.
  apply lookup_insert_eq.
Qed.

Lemma onCreateNew_write_rejected_witness :
  ∃ w', onCreateNew (with_fault (λ n, bool_decide (n = 1)) host0) "section" (section "n")
          true world0 = (Ret true, w')
      ∧ w_field w' = []
      ∧ w_items w' = [item "k0zzzzzzz" "n"].
Proof.
  destruct (onCreateNew_write_rejected (with_fault (λ n, bool_decide (n = 1)) host0)
              "section" (section "n") true world0)
    as (w' & Hrun & _ & Hf & Hi & _); [reflexivity..|].
  exists w'. split; [exact Hrun|]. split; [exact Hf|]. rewrite Hi. reflexivity.
Defined.

(** X25: the lookup of the creatable types never throws and costs one
    call. With a non-empty allow-list among the validations it asks for
    exactly the listed ids, otherwise for all types; when the call
    rejects, the failure is logged and the state is not set. *)
Theorem fetchAllowedTypes_outcome (h : Host) (allTypes : list ContentType) (w : World) :
  ∃ r w', fetchAllowedTypes h allTypes w = (Ret r, w')
    ∧ only_logs w w' ∧ w_tick w' = S (w_tick w)
    ∧ (h_fault h (w_tick w) = true →
         r = None ∧ length (w_console w') = S (length (w_console w)))
    ∧ (h_fault h (w_tick w) = false →
         w_console w' = w_console w
         ∧ r = Some (match picker_options h with
                     | Some allowedIds => h_types_in h (join_comma allowedIds)
                     | None => allTypes
                     end)).
Proof.
  unfold fetchAllowedTypes, picker_options, try_catch, bind, await, ret, console_error,
    modify.
  destruct (getValidationContentTypes h) as [allowedIds|];
    [destruct (bool_decide (0 < length allowedIds))|];
    destruct (h_fault h (w_tick w)); eexists _, _; (split; [reflexivity|]);
    split_and!; try done; intros [=].
Qed.

(** X26: the type lookup of a fetch asks for each content type of the
    returned records once: the ids it joins are pairwise distinct and are
    exactly the content types that occur among the records. *)
Theorem index_entries_type_ids (items : list Entry) :
  NoDup (index_entries items).2
  ∧ ∀ t, t ∈ (index_entries items).2 ↔ t ∈ e_contentType <$> items.
Proof.
  destruct (index_entries_types items ∅ [] (NoDup_nil_2)) as [H1 H2].
  split; [exact H1|]. intros t. unfold index_entries. rewrite H2, elem_of_nil. tauto.
Qed.

Lemma index_by_lookup_NoDup {V} (key : V → string) (items : list V) (x : V) :
  NoDup (key <$> items) → x ∈ items → index_by key ∅ items !! key x = Some x.
Proof.
  induction items as [|y items IH] using rev_ind; [by intros _ ?%elem_of_nil|].
  rewrite fmap_app, index_by_snoc. intros Hnd Hin.
  apply NoDup_app in Hnd as (Hnd & Hdisj & _).
  apply elem_of_app in Hin as [Hin|Hin%list_elem_of_singleton].
  - rewrite lookup_insert_ne; [by apply IH|].
    intros E. apply (Hdisj (key x)); [apply list_elem_of_fmap; eauto|].
    rewrite <- E. cbn. by apply list_elem_of_singleton.
  - subst. apply lookup_insert_eq.
Qed.

(** X27: when both lookups of a fetch resolve and the returned records
    have pairwise distinct ids, every returned record is cached under its
    own id, and likewise every returned type descriptor. *)
Theorem fetchData_caches_each (h : Host) (links : list Link) (w : World) :
  links ≠ [] →
  h_fault h (w_tick w) = false →
  h_fault h (S (w_tick w)) = false →
  NoDup (e_id <$> h_entries_in h (join_comma (link_id <$> links))) →
  ∃ w', fetchData h links w = (Ret tt, w')
    ∧ (∀ e, e ∈ h_entries_in h (join_comma (link_id <$> links)) →
         w_entries w' !! e_id e = Some e)
    ∧ (∀ ct,
         NoDup (ct_id <$> h_types_in h (join_comma
            (index_entries (h_entries_in h (join_comma (link_id <$> links)))).2)) →
         ct ∈ h_types_in h (join_comma
            (index_entries (h_entries_in h (join_comma (link_id <$> links)))).2) →
         w_contentTypes w' !! ct_id ct = Some ct).
Proof.
  intros Hne H0 H1 Hnd.
  unfold fetchData. rewrite (length_nonempty _ Hne).
  unfold bind, try_catch, await, modify, ret. world_simpl.
  rewrite H0.
  destruct (index_entries (h_entries_in h (join_comma (link_id <$> links))))
    as [entriesMap contentTypeIds] eqn:E.
  world_simpl. rewrite H1.
  eexists. split; [reflexivity|]. world_simpl.
  assert (entriesMap = index_by e_id ∅ (h_entries_in h (join_comma (link_id <$> links))))
    as -> by (rewrite <- index_entries_fst, E; reflexivity).
  split.
  - intros e He. by apply index_by_lookup_NoDup.
  - intros ct Hndt Hct. rewrite index_types_eq. by apply index_by_lookup_NoDup.
Qed.

Lemma fetchData_caches_each_witness :
  ∃ w', fetchData (with_entries_in [section "a"; section "b"]
                     (with_types_in [section_type] host0))
          [mkLink "a"; mkLink "b"] world0 = (Ret tt, w')
      ∧ w_entries w' !! "b" = Some (section "b").
Proof.
  destruct (fetchData_caches_each
              (with_entries_in [section "a"; section "b"]
                 (with_types_in [section_type] host0))
              [mkLink "a"; mkLink "b"] world0)
    as (w' & Hrun & He & _);
    [done|reflexivity|reflexivity|apply (bool_decide_unpack _); vm_compute; exact I|].
  exists w'. split; [exact Hrun|].
  apply (He (section "b")). cbn. apply elem_of_cons. right. by apply list_elem_of_singleton.
Defined.

(** X28: after a fetch whose record lookup rejected, an item whose
    record was not cached before shows the title ["Entry not found"]
    (not ["Loading..."]) and the status draft. *)
Theorem card_after_failed_fetch (h : Host) (links : list Link) (w : World)
    (it : LocalItem) :
  links ≠ [] →
  h_fault h (w_tick w) = true →
  w_entries w !! targetId it = None →
  (card h (fetchData h links w).2 it).1 = (VText "Entry not found", Draft).
Proof.
  intros Hne F Hmiss.
  destruct (fetchData_cases h links w Hne) as (w' & Hrun & Hload & _ & Hfirst & _).
  destruct (Hfirst F) as (He & _ & _).
  rewrite Hrun. cbn [snd]. unfold card. cbn [fst]. rewrite He, Hmiss. cbn.
  by rewrite Hload.
Qed.

Lemma card_after_failed_fetch_witness :
  (card (with_fault (λ _, true) host0)
     (fetchData (with_fault (λ _, true) host0) [mkLink "a"] world0).2 (item "k" "a")).1
  = (VText "Entry not found", Draft).
Proof. apply card_after_failed_fetch; done. Defined.

(** X29: a change notification replaces the Collection outright: the
    new items carry the links of the new value in its order (none for a
    missing value), one draw is spent per link and in that order, the
    keys are the cuts of those draws, and they are pairwise distinct
    whenever those cuts are. *)
Theorem onValueChanged_replaces_collection (h : Host) (value : option (list Link))
    (w : World) :
  ∃ w', onValueChanged h value w = (Ret tt, w')
    ∧ link <$> w_items w' = default [] value
    ∧ uniqueId <$> w_items w'
      = (λ n, substring_2_11 (h_random h n))
          <$> seq (w_rand w) (length (default [] value))
    ∧ (NoDup ((λ n, substring_2_11 (h_random h n))
                <$> seq (w_rand w) (length (default [] value))) →
       NoDup (uniqueId <$> w_items w'))
    ∧ (default [] value = [] → w' = set_items [] w).
Proof.
  unfold onValueChanged.
  destruct (wrap_links_run h (default [] value) w) as (items & w1 & Hrun & Hl & Hk & _).
  destruct (fetchData_keeps_items h (default [] value) (set_items items w1))
    as (w' & Hf & Hi).
  exists w'. unfold bind at 1. rewrite Hrun.
  unfold bind at 1, modify at 1. rewrite Hf. rewrite Hi. world_simpl.
  split_and!; try done.
  - intros Hnd. by rewrite Hk.
  - intros Hnil. rewrite Hnil in *. unfold ret in Hrun. injection Hrun as <- <-.
    rewrite fetchData_empty in Hf. by injection Hf as <-.
Qed.
